(** * An in-memory relational store with a metadata-driven integrity layer

    Shallow embedding of the [RelationalDb] library (classes [Columns],
    [Rows], [Rowset], [Table], [Tables], [View], [Database]) and of the
    [Crud] layer built on top of it, followed by the properties of the
    store that the design document states.

    Conventions of the embedding.
    - A JavaScript value stored in a row is a [value]; numbers are the
      integers [Z] (identities are produced by [nextId++] starting at 1,
      so only integer arithmetic is involved).
    - An array is a [list]; reading out of range yields [VUndef], writing
      out of range extends the array, as in JavaScript.
    - An object used as a record of fields ([rowData], [updates],
      [filter], [foreignKeys], the metadata registry) is an association
      list in property-insertion order, which is the order [for..in]
      enumerates it.
    - A [Map] used only through [has]/[set]/[delete] is a [gset] of its
      keys; the catalog object [tables] is a [gmap].
    - A call either returns or throws; the store it leaves behind is
      returned in both cases, because a [throw] does not undo the writes
      made before it. *)

From Stdlib Require Import ZArith Ascii String DecimalString List Sorted Lia.
From stdpp Require Import gmap strings list fin_maps.

Open Scope Z_scope.

(** ** Values *)

Inductive value : Type :=
  | VUndef
  | VNull
  | VBool (b : bool)
  | VNum (n : Z)
  | VStr (s : string).

#[global] Instance value_eq_dec : EqDecision value.
Proof. solve_decision. Defined.

(** [a === b] and [a !== b] on the values above. *)
Definition strict_eq (a b : value) : bool := bool_decide (a = b).
Definition strict_ne (a b : value) : bool := negb (strict_eq a b).

(** [v == null]. *)
Definition is_nullish (v : value) : bool :=
  match v with VUndef | VNull => true | _ => false end.

Definition string_of_Z (z : Z) : string := NilZero.string_of_int (Z.to_int z).

(** The conversion [Array.prototype.join] applies to each element. *)
Definition join_string (v : value) : string :=
  match v with
  | VUndef | VNull => ""
  | VBool true => "true"
  | VBool false => "false"
  | VNum n => string_of_Z n
  | VStr s => s
  end.

Definition join (sep : string) (vs : list value) : string :=
  String.concat sep (map join_string vs).

(** ** Arrays and objects *)

Definition arr_get (a : list value) (i : Z) : value :=
  if i <? 0 then VUndef else default VUndef (a !! Z.to_nat i).

(** [a[i] = v] for [0 <= i]; a write past the end grows the array. *)
Definition arr_set (a : list value) (i : Z) (v : value) : list value :=
  let n := Z.to_nat i in
  if (n <? length a)%nat then <[n := v]> a
  else a ++ replicate (n - length a)%nat VUndef ++ [v].

Definition obj (A : Type) : Type := list (string * A).

Definition keys {A} (o : obj A) : list string := map fst o.

Fixpoint obj_lookup {A} (o : obj A) (k : string) : option A :=
  match o with
  | [] => None
  | (k', v) :: o' => if decide (k' = k) then Some v else obj_lookup o' k
  end.

(** [o[k]] on an object of values. *)
Definition obj_get (o : obj value) (k : string) : value :=
  default VUndef (obj_lookup o k).

(** [o[k] = v]: an existing property keeps its place, a new one goes last. *)
Fixpoint obj_set {A} (o : obj A) (k : string) (v : A) : obj A :=
  match o with
  | [] => [(k, v)]
  | (k', v') :: o' =>
      if decide (k' = k) then (k, v) :: o' else (k', v') :: obj_set o' k v
  end.

(** [{ [k]: v }]. *)
Definition obj_single (k : string) (v : value) : obj value := [(k, v)].

(** ** Outcomes *)

Inductive error : Type :=
  | UniqueViolation (cols : list string)
  | ForeignKeyViolation (fkTable col : string) (val : value)
  | FirstColumnNotId
  | CircularDependency (tableName : value)
  | ErrorMessage (msg : value)
  | TypeError.

Inductive outcome (A : Type) : Type :=
  | Return (a : A)
  | Throw (e : error).
Arguments Return {A} a.
Arguments Throw {A} e.

Definition returned {A} (o : outcome A) : option A :=
  match o with Return a => Some a | Throw _ => None end.

Definition is_unique_violation {A} (o : outcome A) : bool :=
  match o with Throw (UniqueViolation _) => true | _ => false end.

(** ** Columns *)

Fixpoint indexOf_from (i : Z) (l : list string) (x : string) : Z :=
  match l with
  | [] => -1
  | y :: l' => if decide (y = x) then i else indexOf_from (i + 1) l' x
  end.

(** [names.indexOf(name)] *)
Definition indexOf (names : list string) (name : string) : Z :=
  indexOf_from 0 names name.

Definition Columns_getIndex (names : list string) (name : string) : Z :=
  indexOf names name.

(** ** Rows and tables *)

Record Rows : Type := mkRows {
  data : list (list value);
  nextId : Z;
  uniqueMaps : list (gset string)
}.

Record Table : Type := mkTable {
  name : string;
  columns : list string;
  unique : list (list string);
  rows : Rows
}.

Definition with_rows (t : Table) (r : Rows) : Table :=
  mkTable (name t) (columns t) (unique t) r.

(** The values of a row on the columns of a constraint. *)
Definition key_tuple (cols uniqueCols : list string) (rowData : list value)
    : list value :=
  map (fun col => arr_get rowData (Columns_getIndex cols col)) uniqueCols.

(** [_getUniqueKey(rowData, uniqueIndex)], given the constraint's columns. *)
Definition Rows__getUniqueKey (cols uniqueCols : list string)
    (rowData : list value) : string :=
  join "::" (key_tuple cols uniqueCols rowData).

(** The constraint loop of [add], entered at index [i] with the
    constraints from [i] on. *)
Fixpoint add_unique_loop (cols : list string) (arr : list value)
    (uniq : list (list string)) (i : nat) (maps : list (gset string))
    : list (gset string) * outcome unit :=
  match uniq with
  | [] => (maps, Return tt)
  | ucols :: rest =>
      match maps !! i with
      | None => (maps, Throw TypeError)
      | Some m =>
          let key := Rows__getUniqueKey cols ucols arr in
          if bool_decide (key ∈ m) then (maps, Throw (UniqueViolation ucols))
          else add_unique_loop cols arr rest (S i) (<[i := {[key]} ∪ m]> maps)
      end
  end.

(** The first loop of [add]: copy the known fields into a row of nulls. *)
Definition add_fill (cols : list string) (rowData : obj value) : list value :=
  fold_left
    (fun arr key =>
       let idx := Columns_getIndex cols key in
       if -1 <? idx then arr_set arr idx (obj_get rowData key) else arr)
    (keys rowData)
    (replicate (length cols) VNull).

Definition Rows_add (t : Table) (rowData : obj value) : Table * outcome value :=
  let rs := rows t in
  let arr := arr_set (add_fill (columns t) rowData) 0 (VNum (nextId rs)) in
  let next := nextId rs + 1 in
  match add_unique_loop (columns t) arr (unique t) 0 (uniqueMaps rs) with
  | (maps, Throw e) => (with_rows t (mkRows (data rs) next maps), Throw e)
  | (maps, Return _) =>
      (with_rows t (mkRows (data rs ++ [arr]) next maps), Return (arr_get arr 0))
  end.

(** [get(id)]: the first row whose identity is [id], with its position. *)
Definition Rows_get (rs : Rows) (id : value) : option (nat * list value) :=
  list_find (fun r => arr_get r 0 = id) (data rs).

Definition update_fill (cols : list string) (updates : obj value)
    (old : list value) : list value :=
  fold_left
    (fun arr key =>
       let idx := Columns_getIndex cols key in
       if 0 <? idx then arr_set arr idx (obj_get updates key) else arr)
    (keys updates)
    old.

(** The constraint loop of [update]. *)
Fixpoint update_unique_loop (cols : list string) (oldData newData : list value)
    (uniq : list (list string)) (i : nat) (maps : list (gset string))
    : list (gset string) * outcome unit :=
  match uniq with
  | [] => (maps, Return tt)
  | ucols :: rest =>
      let oldKey := Rows__getUniqueKey cols ucols oldData in
      let newKey := Rows__getUniqueKey cols ucols newData in
      if bool_decide (newKey ≠ oldKey) then
        (* only now is [this.uniqueMaps[i]] looked at *)
        match maps !! i with
        | None => (maps, Throw TypeError)
        | Some m =>
            if bool_decide (newKey ∈ m)
            then (maps, Throw (UniqueViolation ucols))
            else update_unique_loop cols oldData newData rest (S i)
                   (<[i := {[newKey]} ∪ (m ∖ {[oldKey]})]> maps)
        end
      else update_unique_loop cols oldData newData rest (S i) maps
  end.

Definition Rows_update (t : Table) (id : value) (updates : obj value)
    : Table * outcome unit :=
  let rs := rows t in
  match Rows_get rs id with
  | None => (t, Return tt)
  | Some (pos, oldData) =>
      let newData := update_fill (columns t) updates oldData in
      match update_unique_loop (columns t) oldData newData (unique t) 0 (uniqueMaps rs) with
      | (maps, Throw e) =>
          (* row.data = oldData *)
          (with_rows t (mkRows (data rs) (nextId rs) maps), Throw e)
      | (maps, Return _) =>
          (with_rows t (mkRows (<[pos := newData]> (data rs)) (nextId rs) maps), Return tt)
      end
  end.

Fixpoint delete_unique_loop (cols : list string) (rowData : list value)
    (uniq : list (list string)) (i : nat) (maps : list (gset string))
    : list (gset string) * outcome unit :=
  match uniq with
  | [] => (maps, Return tt)
  | ucols :: rest =>
      match maps !! i with
      | None => (maps, Throw TypeError)
      | Some m =>
          let key := Rows__getUniqueKey cols ucols rowData in
          delete_unique_loop cols rowData rest (S i) (<[i := m ∖ {[key]}]> maps)
      end
  end.

Definition Rows_delete (t : Table) (id : value) : Table * outcome unit :=
  let rs := rows t in
  match Rows_get rs id with
  | None => (t, Return tt)
  | Some (_, rowData) =>
      match delete_unique_loop (columns t) rowData (unique t) 0 (uniqueMaps rs) with
      | (maps, Throw e) => (with_rows t (mkRows (data rs) (nextId rs) maps), Throw e)
      | (maps, Return _) =>
          (with_rows t
             (mkRows (List.filter (fun r => strict_ne (arr_get r 0) id) (data rs)) (nextId rs) maps),
           Return tt)
      end
  end.

(** The predicate of [find]: every filter column the table knows agrees. *)
Definition row_matches (cols : list string) (flt : obj value) (r : list value) : bool :=
  forallb
    (fun key =>
       let idx := Columns_getIndex cols key in
       negb ((-1 <? idx) && strict_ne (arr_get r idx) (obj_get flt key)))
    (keys flt).

Definition Rows_find (t : Table) (flt : obj value) : list (list value) :=
  List.filter (row_matches (columns t) flt) (data (rows t)).

(** [rows.map(row => row.data)] *)
Record Rowset : Type := mkRowset {
  rs_columns : list string;
  rs_rows : list (list value)
}.

Definition Rowset_toArray (r : Rowset) : list (list value) := rs_rows r.

(** [new Table(name, columnNames, unique)] *)
Definition Table_new (nm : string) (columnNames : list string)
    (uniq : list (list string)) : outcome Table :=
  if strict_ne (default VUndef (VStr <$> head columnNames)) (VStr "id")
  then Throw FirstColumnNotId
  else Return (mkTable nm columnNames uniq (mkRows [] 1 (map (fun _ => ∅) uniq))).

(** ** Catalog *)

(** [name.startsWith('tbl') ? name : 'tbl' + name] *)
Definition normalize (nm : string) : string :=
  if String.prefix "tbl" nm then nm else ("tbl" ++ nm)%string.

Definition Tables_addTable (tables : gmap string Table) (nm : string)
    (cols : list string) (uniq : list (list string))
    : gmap string Table * outcome unit :=
  let nm := normalize nm in
  match Table_new nm cols uniq with
  | Throw e => (tables, Throw e)
  | Return t => (<[nm := t]> tables, Return tt)
  end.

Definition Tables_getTable (tables : gmap string Table) (nm : string) : option Table :=
  tables !! normalize nm.

(** ** Views *)

Record Join : Type := mkJoin {
  leftCol : string;
  rightTable : string;
  rightCol : string
}.

Record View : Type := mkView {
  tableNames : list string;
  joins : list Join
}.

Record Database : Type := mkDatabase {
  tables : gmap string Table;
  views : gmap string View
}.

Definition with_tables (db : Database) (ts : gmap string Table) : Database :=
  mkDatabase ts (views db).

(** The inner loop of [getData]: one left row against every right row. *)
Definition join_inner (leftColIdx rightColIdx : Z) (leftRow : list value)
    (rightRows : list (list value)) (newResult : list (list value))
    : list (list value) :=
  fold_left
    (fun acc rightRow =>
       if strict_eq (arr_get leftRow leftColIdx) (arr_get rightRow rightColIdx)
       then acc ++ [leftRow ++ tail rightRow]
       else acc)
    rightRows newResult.

(** The two nested loops of [getData] for one join. *)
Definition join_step (leftColIdx rightColIdx : Z)
    (resultRows rightRows : list (list value)) : list (list value) :=
  fold_left
    (fun acc leftRow => join_inner leftColIdx rightColIdx leftRow rightRows acc)
    resultRows [].

(** The loop over [this.joins], threading [resultRows] and [currentColumns]. *)
Fixpoint getData_loop (ts : gmap string Table) (js : list Join)
    (resultRows : list (list value)) (currentColumns : list string)
    : outcome Rowset :=
  match js with
  | [] => Return (mkRowset currentColumns resultRows)
  | j :: js' =>
      match Tables_getTable ts (rightTable j) with
      | None => Throw TypeError
      | Some rt =>
          let leftColIdx := indexOf currentColumns (leftCol j) in
          let rightColIdx := Columns_getIndex (columns rt) (rightCol j) in
          let newColumns :=
            currentColumns ++
            map (fun col => (rightTable j ++ "." ++ col)%string) (tail (columns rt)) in
          let newResult := join_step leftColIdx rightColIdx resultRows (data (rows rt)) in
          getData_loop ts js' newResult newColumns
      end
  end.

Definition View_getData (db : Database) (v : View) : outcome Rowset :=
  match head (tableNames v) with
  | None => Throw TypeError
  | Some first =>
      match Tables_getTable (tables db) first with
      | None => Throw TypeError
      | Some currentTable =>
          getData_loop (tables db) (joins v)
            (data (rows currentTable)) (columns currentTable)
      end
  end.

Definition Views_getView (db : Database) (nm : string) : option (outcome Rowset) :=
  View_getData db <$> (views db !! nm).

(** ** Database facade *)

Definition Database_create (db : Database) (tableName : string) (rowData : obj value)
    : Database * outcome value :=
  match Tables_getTable (tables db) tableName with
  | None => (db, Throw TypeError)
  | Some t =>
      let '(t', r) := Rows_add t rowData in
      (with_tables db (<[normalize tableName := t']> (tables db)), r)
  end.

Definition Database_read (db : Database) (tableName : string) (flt : obj value)
    : outcome Rowset :=
  match Tables_getTable (tables db) tableName with
  | None => Throw TypeError
  | Some t => Return (mkRowset (columns t) (Rows_find t flt))
  end.

Definition Database_update (db : Database) (tableName : string) (id : value)
    (updates : obj value) : Database * outcome unit :=
  match Tables_getTable (tables db) tableName with
  | None => (db, Throw TypeError)
  | Some t =>
      let '(t', r) := Rows_update t id updates in
      (with_tables db (<[normalize tableName := t']> (tables db)), r)
  end.

Definition Database_delete (db : Database) (tableName : string) (id : value)
    : Database * outcome unit :=
  match Tables_getTable (tables db) tableName with
  | None => (db, Throw TypeError)
  | Some t =>
      let '(t', r) := Rows_delete t id in
      (with_tables db (<[normalize tableName := t']> (tables db)), r)
  end.

(** ** Sequences of store operations on one table *)

Inductive op : Type :=
  | OpAdd (rowData : obj value)
  | OpUpdate (id : value) (updates : obj value)
  | OpDelete (id : value).

(** What one operation reports: the identity a successful [add] returned. *)
Definition step (t : Table) (o : op) : Table * option value :=
  match o with
  | OpAdd rowData => let '(t', r) := Rows_add t rowData in (t', returned r)
  | OpUpdate id updates => (fst (Rows_update t id updates), None)
  | OpDelete id => (fst (Rows_delete t id), None)
  end.

(** Run the operations in order, collecting the identities handed out. *)
Fixpoint run (t : Table) (ops : list op) : Table * list value :=
  match ops with
  | [] => (t, [])
  | o :: ops' =>
      let '(t1, r) := step t o in
      let '(t2, ids) := run t1 ops' in
      (t2, match r with Some id => id :: ids | None => ids end)
  end.

(** ** The metadata-driven layer ([Crud])

    The registry [metadata] is the object [this.metadata]: table name to
    declaration. Objects hold each property once, so enumerating the
    pairs of the association list is [for (k in o)] followed by [o[k]]. *)

Record Meta : Type := mkMeta {
  primaryKey : option string;
  foreignKeys : option (obj string);
  displayField : option string;
  children : option (list string)
}.

Definition metadata : Type := obj Meta.

(** The state a [Crud] object works on: the database it wraps, and the
    calls it made to [db.delete], oldest first, kept so that the order of
    a cascade can be stated. *)
Record cstate : Type := mkCstate {
  db : Database;
  deleted : list (string * value)
}.

Definition Crud_define (md : metadata) (tableName : string) (meta : Meta)
    : metadata * outcome unit :=
  (obj_set md (normalize tableName) meta, Return tt).

Definition Crud__normalize (nm : string) : string := normalize nm.

(** [if (v)] *)
Definition truthy (v : value) : bool :=
  match v with
  | VUndef | VNull => false
  | VBool b => b
  | VNum n => negb (n =? 0)
  | VStr s => negb (String.eqb s "")
  end.

(** [meta.primaryKey || 'id'] *)
Definition Crud__pkOf (md : metadata) (tableName : string) : string :=
  match obj_lookup md (Crud__normalize tableName) with
  | Some meta =>
      match primaryKey meta with
      | Some pk => if String.eqb pk "" then "id" else pk
      | None => "id"
      end
  | None => "id"
  end.

(** The validation loop of [create] over [meta.foreignKeys]. *)
Fixpoint create_fk_loop (md : metadata) (d : Database) (fks : obj string)
    (o : obj value) : outcome unit :=
  match fks with
  | [] => Return tt
  | (col, fkTable) :: rest =>
      let val := obj_get o col in
      if is_nullish val then create_fk_loop md d rest o
      else
        match Database_read d fkTable (obj_single (Crud__pkOf md fkTable) val) with
        | Throw e => Throw e
        | Return rs =>
            if (length (Rowset_toArray rs) =? 0)%nat
            then Throw (ForeignKeyViolation fkTable col val)
            else create_fk_loop md d rest o
        end
  end.

Definition Crud_create (md : metadata) (d : Database) (tableName : string)
    (o : obj value) : Database * outcome value :=
  let tableName := Crud__normalize tableName in
  let fks :=
    match obj_lookup md tableName with
    | Some meta => default [] (foreignKeys meta)
    | None => []
    end in
  match create_fk_loop md d fks o with
  | Throw e => (d, Throw e)
  | Return _ => Database_create d tableName o
  end.

(** [delete o[k]] *)
Fixpoint obj_delete {A} (o : obj A) (k : string) : obj A :=
  match o with
  | [] => []
  | (k', v) :: o' => if decide (k' = k) then o' else (k', v) :: obj_delete o' k
  end.

Definition Crud_update (md : metadata) (d : Database) (tableName : string)
    (id : value) (updates : obj value) : Database * outcome unit :=
  let tableName := Crud__normalize tableName in
  let pk := Crud__pkOf md tableName in
  let updates := if truthy (obj_get updates pk) then obj_delete updates pk else updates in
  Database_update d tableName id updates.

(** A loop whose body may throw or exhaust the call stack ([None]). *)
Definition res (S : Type) : Type := option (S * outcome unit).

Fixpoint for_each {S A : Type} (body : A → S → res S) (l : list A) (s : S) : res S :=
  match l with
  | [] => Some (s, Return tt)
  | x :: l' =>
      match body x s with
      | Some (s', Return _) => for_each body l' s'
      | r => r
      end
  end.

(** [this.db.delete(tableName, id)], remembered in [deleted]. *)
Definition db_delete (tableName : string) (id : value) (s : cstate) : res cstate :=
  let '(d', r) := Database_delete (db s) tableName id in
  Some (mkCstate d' (deleted s ++ [(tableName, id)]), r).

(** The body of [Crud.prototype.delete], with the recursive call as a
    parameter. *)
Definition Crud_delete_body (self : string → value → cstate → res cstate)
    (md : metadata) (tableName : string) (id : value) (s : cstate) : res cstate :=
  let tableName := Crud__normalize tableName in
  match
    for_each
      (fun '(t, childMeta) =>
         match foreignKeys childMeta with
         | None => fun s => Some (s, Return tt)
         | Some fks =>
             for_each
               (fun '(col, target) s =>
                  if decide (target = tableName) then
                    match Database_read (db s) t (obj_single col id) with
                    | Throw e => Some (s, Throw e)
                    | Return rs =>
                        for_each (fun r => self t (arr_get r 0)) (Rowset_toArray rs) s
                    end
                  else Some (s, Return tt))
               fks
         end)
      md s
  with
  | Some (s', Return _) => db_delete tableName id s'
  | r => r
  end.

(** [Crud.prototype.delete]; [fuel] bounds the depth of the recursion, and
    [None] stands for a call stack that ran out. *)
Fixpoint Crud_delete (fuel : nat) (md : metadata) (tableName : string)
    (id : value) (s : cstate) : res cstate :=
  match fuel with
  | O => None
  | S fuel' => Crud_delete_body (Crud_delete fuel' md) md tableName id s
  end.

(** The loop of [_rowToObject] (called [_rowArrayToObject] in the second
    copy of the layer): [obj[names[i]] = arr[i]] for each column in turn,
    so that of two columns with one name the later one is read. An
    assignment to [__proto__] goes to the setter the object inherits and
    creates no property; the setter is gone once it was given [null]
    ([bare]). Only property reads are made on the result, so the order
    in which it enumerates is left aside. *)
Fixpoint rowToObject_loop (i : Z) (cols : list string) (arr : list value)
    (o : obj value) (bare : bool) : obj value :=
  match cols with
  | [] => o
  | nm :: cols' =>
      if String.eqb nm "__proto__" && negb bare
      then rowToObject_loop (i + 1) cols' arr o (bool_decide (arr_get arr i = VNull))
      else rowToObject_loop (i + 1) cols' arr (obj_set o nm (arr_get arr i)) bare
  end.

(** [readAll]: each row array turned into a fresh object. *)
Definition Crud__rowToObject (cols : list string) (arr : list value) : obj value :=
  rowToObject_loop 0 cols arr [] false.

Definition Crud_readAll (d : Database) (tableName : string) (flt : obj value)
    : outcome (list (obj value)) :=
  let tableName := Crud__normalize tableName in
  match Database_read d tableName flt with
  | Throw e => Throw e
  | Return rs =>
      match Tables_getTable (tables d) tableName with
      | None => Throw TypeError
      | Some t => Return (map (Crud__rowToObject (columns t)) (Rowset_toArray rs))
      end
  end.

(** [get]: [readAll(tableName, { [pk]: id })[0] || null], with [None] for
    [null]. *)
Definition Crud_get (md : metadata) (d : Database) (tableName : string) (id : value)
    : outcome (option (obj value)) :=
  let pk := Crud__pkOf md tableName in
  match Crud_readAll d tableName (obj_single pk id) with
  | Throw e => Throw e
  | Return results => Return (head results)
  end.

(** The set [used] of [_cleanupOrphanedCombinations]: what the rolls hold
    in [Combo_id], and what the games hold in [comb1_id] and [comb2_id]
    where that is truthy. *)
Definition used_combinations (rolls games : list (obj value)) : list value :=
  map (fun r => obj_get r "Combo_id") rolls ++
  flat_map
    (fun g =>
       (if truthy (obj_get g "comb1_id") then [obj_get g "comb1_id"] else []) ++
       (if truthy (obj_get g "comb2_id") then [obj_get g "comb2_id"] else []))
    games.

(** Its last loop, over the combinations read at the start. *)
Fixpoint cleanup_loop (combos : list (obj value)) (used : list value) (d : Database)
    : Database * outcome unit :=
  match combos with
  | [] => (d, Return tt)
  | c :: rest =>
      if bool_decide (obj_get c "id" ∈ used) then cleanup_loop rest used d
      else
        match Database_delete d "tblCombination" (obj_get c "id") with
        | (d', Return _) => cleanup_loop rest used d'
        | r => r
        end
  end.

(** [_cleanupOrphanedCombinations], which the second copy of the layer
    runs after a delete on players, rolls or games. *)
Definition Crud__cleanupOrphanedCombinations (d : Database) : Database * outcome unit :=
  match Crud_readAll d "tblCombination" [] with
  | Throw e => (d, Throw e)
  | Return combos =>
      match Crud_readAll d "tblDiceRollsByPlayer" [] with
      | Throw e => (d, Throw e)
      | Return rolls =>
          match Crud_readAll d "tblGames" [] with
          | Throw e => (d, Throw e)
          | Return games => cleanup_loop combos (used_combinations rolls games) d
          end
      end
  end.

(** ** Example stores *)

Definition emptyDb : Database := mkDatabase ∅ ∅.

(** Run creates in order, ignoring what they return. *)
Definition seed (md : metadata) (d : Database) (l : list (string * obj value)) : Database :=
  fold_left (fun d '(t, o) => (Crud_create md d t o).1) l d.

Definition addTables (d : Database) (l : list (string * list string * list (list string)))
    : Database :=
  fold_left
    (fun d '(nm, cols, uniq) => with_tables d (Tables_addTable (tables d) nm cols uniq).1)
    l d.

Definition noMeta : Meta := mkMeta None None None None.

(** Register declarations in order. *)
Definition defines (md : metadata) (l : list (string * Meta)) : metadata :=
  fold_left (fun md '(t, meta) => (Crud_define md t meta).1) l md.

(** Players and Games, the second referencing the first twice. *)
Definition mdPG : metadata :=
  defines []
    [("Players", mkMeta (Some "id") None (Some "Name") None);
     ("Games",
      mkMeta (Some "id")
        (Some [("player1_id", "tblPlayers"); ("player2_id", "tblPlayers")])
        None None)].

Definition dbPG : Database :=
  seed mdPG
    (addTables emptyDb
       [("Players", ["id"; "Name"], []);
        ("Games", ["id"; "player1_id"; "player2_id"], [])])
    [("Players", [("Name", VStr "Ann")]);
     ("Players", [("Name", VStr "Bob")]);
     ("Players", [("Name", VStr "Cy")]);
     ("Players", [("Name", VStr "Di")]);
     ("Players", [("Name", VStr "Ed")]);
     ("Games", [("player1_id", VNum 5); ("player2_id", VNum 1)]);
     ("Games", [("player1_id", VNum 1); ("player2_id", VNum 2)]);
     ("Games", [("player1_id", VNum 5); ("player2_id", VNum 2)])].

(** The live rows of a table, by table name. *)
Definition rows_of (d : Database) (nm : string) : list (list value) :=
  match Tables_getTable (tables d) nm with
  | Some t => data (rows t)
  | None => []
  end.

(** A declaration for a table the catalog does not hold. *)
Definition ghostMeta : Meta :=
  mkMeta None (Some [("owner", "tblPlayers")]) None None.

(** A declaration of a foreign-key column the table does not have. *)
Definition strayColumnMeta : Meta :=
  mkMeta None (Some [("owner_id", "tblPlayers")]) None None.

(** Two tables whose foreign keys point at each other, and one row in
    each, referencing the other. The rows are created through the
    validated layer: [A] first with no reference, then [B], and [A] is
    then updated to reference [B]. *)
Definition mdCyc : metadata :=
  defines []
    [("A", mkMeta None (Some [("b_id", "tblB")]) None None);
     ("B", mkMeta None (Some [("a_id", "tblA")]) None None)].

Definition dbCyc : Database :=
  Eval vm_compute in
    (Crud_update mdCyc
       (seed mdCyc
          (addTables emptyDb [("A", ["id"; "b_id"], []); ("B", ["id"; "a_id"], [])])
          [("A", []); ("B", [("a_id", VNum 1)])])
       "A" (VNum 1) [("b_id", VNum 1)]).1.

(** ** The uniqueness invariant *)

(** No two live rows, at distinct positions, agree on the columns of a
    declared constraint. *)
Definition unique_invariant (t : Table) : Prop :=
  Forall
    (fun ucols => NoDup (map (key_tuple (columns t) ucols) (data (rows t))))
    (unique t).

(** Each index holds exactly the keys of the live rows. *)
Definition index_exact (t : Table) : Prop :=
  Forall2
    (fun ucols (m : gset string) =>
       m = list_to_set (map (Rows__getUniqueKey (columns t) ucols) (data (rows t))))
    (unique t) (uniqueMaps (rows t)).

(** Each index holds at least the keys of the live rows. *)
Definition index_covers (t : Table) : Prop :=
  Forall2
    (fun ucols (m : gset string) =>
       ∀ r, r ∈ data (rows t) → Rows__getUniqueKey (columns t) ucols r ∈ m)
    (unique t) (uniqueMaps (rows t)).

(** No two live rows have the same key on a constraint. *)
Definition keys_distinct (t : Table) : Prop :=
  Forall
    (fun ucols => NoDup (map (Rows__getUniqueKey (columns t) ucols) (data (rows t))))
    (unique t).

(** The identities of the live rows are distinct integers below the
    counter. *)
Definition ids_fresh (t : Table) : Prop :=
  NoDup (map (fun r => arr_get r 0) (data (rows t))) ∧
  Forall (fun r => ∃ n, arr_get r 0 = VNum n ∧ n < nextId (rows t)) (data (rows t)).

(** One index is right for the rows [rowsData]: it holds exactly their
    keys, and no two of them have the same key. *)
Definition idx_ok (cols : list string) (rowsData : list (list value))
    (ucols : list string) (m : gset string) : Prop :=
  m = list_to_set (map (Rows__getUniqueKey cols ucols) rowsData) ∧
  NoDup (map (Rows__getUniqueKey cols ucols) rowsData).

(** What the store keeps of a table from one call to the next, as long
    as no call throws between two index writes. *)
Definition table_inv (t : Table) : Prop :=
  index_exact t ∧ keys_distinct t ∧ ids_fresh t.

(** The key a constraint gets from the merged row [new] differs from the
    key of [old] and is the key of a live row. *)
Definition collides (cols : list string) (rowsData : list (list value))
    (old new : list value) (ucols : list string) : Prop :=
  Rows__getUniqueKey cols ucols new ≠ Rows__getUniqueKey cols ucols old ∧
  ∃ r, r ∈ rowsData ∧
       Rows__getUniqueKey cols ucols r = Rows__getUniqueKey cols ucols new.

(** A table with two single-column constraints. *)
Definition tAB : Table :=
  mkTable "tblT" ["id"; "a"; "b"] [["a"]; ["b"]] (mkRows [] 1 [∅; ∅]).

Definition twoRows : list op :=
  [OpAdd [("a", VNum 1); ("b", VNum 1)];
   OpAdd [("a", VNum 2); ("b", VNum 2)]].

(** Row 1 is moved to a free [a] and to the [b] of row 2: rejected. *)
Definition rejectedUpdate : op :=
  OpUpdate (VNum 1) [("a", VNum 3); ("b", VNum 2)].

(** A table with one constraint over two columns, holding one row. *)
Definition tXY : Table :=
  (run (mkTable "tblT" ["id"; "x"; "y"] [["x"; "y"]] (mkRows [] 1 [∅]))
       [OpAdd [("x", VNum 1); ("y", VNum 2)]]).1.

(** ** Row arrays as shared objects

    What a caller of [read(...).toArray()] holds is not a list of values
    but references to the arrays [row.data] of the store. To follow them
    through later writes, the arrays and the [Row] objects are placed in
    a heap: [update] writes into the array the row refers to and, when it
    rejects, points the row at the copy it took. The operations are the
    ones above otherwise, and [abs] maps a heap and a table of references
    back to a table of values. *)

Module Shared.

Record heap : Type := mkHeap {
  arrays : list (list value);   (* array reference = position *)
  rowObjs : list nat            (* [Row] reference = position; holds [data] *)
}.

Definition deref (h : heap) (ref : nat) : list value :=
  default [] (arrays h !! ref).

(** [row.data], as a reference and as the array behind it. *)
Definition data_ref (h : heap) (row : nat) : nat :=
  default 0%nat (rowObjs h !! row).

Definition row_data (h : heap) (row : nat) : list value :=
  deref h (data_ref h row).

Definition alloc_array (h : heap) (a : list value) : heap * nat :=
  (mkHeap (arrays h ++ [a]) (rowObjs h), length (arrays h)).

(** [new Row(arr)] *)
Definition alloc_row (h : heap) (ref : nat) : heap * nat :=
  (mkHeap (arrays h) (rowObjs h ++ [ref]), length (rowObjs h)).

(** The element writes of a loop, seen as their combined effect on the
    array at [ref]. *)
Definition write_array (h : heap) (ref : nat) (a : list value) : heap :=
  mkHeap (<[ref := a]> (arrays h)) (rowObjs h).

(** [row.data = ref] *)
Definition set_data (h : heap) (row ref : nat) : heap :=
  mkHeap (arrays h) (<[row := ref]> (rowObjs h)).

Record STable : Type := mkSTable {
  sname : string;
  scolumns : list string;
  sunique : list (list string);
  sdata : list nat;             (* [this.data]: references to [Row] objects *)
  snextId : Z;
  suniqueMaps : list (gset string)
}.

Definition with_srows (t : STable) (d : list nat) (n : Z) (maps : list (gset string))
    : STable :=
  mkSTable (sname t) (scolumns t) (sunique t) d n maps.

Definition abs (h : heap) (t : STable) : Table :=
  mkTable (sname t) (scolumns t) (sunique t)
    (mkRows (map (row_data h) (sdata t)) (snextId t) (suniqueMaps t)).

Definition Rows_add (h : heap) (t : STable) (rowData : obj value)
    : heap * STable * outcome value :=
  let arr := arr_set (add_fill (scolumns t) rowData) 0 (VNum (snextId t)) in
  let '(h1, ref) := alloc_array h arr in
  let next := snextId t + 1 in
  match add_unique_loop (scolumns t) arr (sunique t) 0 (suniqueMaps t) with
  | (maps, Throw e) => (h1, with_srows t (sdata t) next maps, Throw e)
  | (maps, Return _) =>
      let '(h2, row) := alloc_row h1 ref in
      (h2, with_srows t (sdata t ++ [row]) next maps, Return (arr_get arr 0))
  end.

Definition Rows_get (h : heap) (t : STable) (id : value) : option (nat * nat) :=
  list_find (fun row => arr_get (row_data h row) 0 = id) (sdata t).

Definition Rows_update (h : heap) (t : STable) (id : value) (updates : obj value)
    : heap * STable * outcome unit :=
  match Rows_get h t id with
  | None => (h, t, Return tt)
  | Some (_, row) =>
      let ref := data_ref h row in
      (* const oldData = [...row.data] *)
      let '(h1, oldRef) := alloc_array h (deref h ref) in
      (* row.data[idx] = updates[key] *)
      let h2 := write_array h1 ref (update_fill (scolumns t) updates (deref h ref)) in
      match
        update_unique_loop (scolumns t) (deref h2 oldRef) (row_data h2 row)
          (sunique t) 0 (suniqueMaps t)
      with
      | (maps, Throw e) =>
          (set_data h2 row oldRef, with_srows t (sdata t) (snextId t) maps, Throw e)
      | (maps, Return _) =>
          (h2, with_srows t (sdata t) (snextId t) maps, Return tt)
      end
  end.

Definition Rows_delete (h : heap) (t : STable) (id : value)
    : heap * STable * outcome unit :=
  match Rows_get h t id with
  | None => (h, t, Return tt)
  | Some (_, row) =>
      match
        delete_unique_loop (scolumns t) (row_data h row) (sunique t) 0 (suniqueMaps t)
      with
      | (maps, Throw e) => (h, with_srows t (sdata t) (snextId t) maps, Throw e)
      | (maps, Return _) =>
          (h,
           with_srows t
             (List.filter (fun row => strict_ne (arr_get (row_data h row) 0) id) (sdata t))
             (snextId t) maps,
           Return tt)
      end
  end.

Definition Rows_find (h : heap) (t : STable) (flt : obj value) : list nat :=
  List.filter (fun row => row_matches (scolumns t) flt (row_data h row)) (sdata t).

(** [db.read(table, filter).toArray()]: the references [row.data] of
    the selected rows. *)
Definition read_toArray (h : heap) (t : STable) (flt : obj value) : list nat :=
  map (data_ref h) (Rows_find h t flt).

(** What the caller sees through the references it was given. *)
Definition view (h : heap) (refs : list nat) : list (list value) :=
  map (deref h) refs.

(** The heap is well formed for a table: its rows are distinct [Row]
    objects that exist and refer to distinct arrays that exist. *)
Definition wf (h : heap) (t : STable) : Prop :=
  NoDup (map (data_ref h) (sdata t)) ∧
  Forall (fun row => (row < length (rowObjs h))%nat ∧
                     (data_ref h row < length (arrays h))%nat) (sdata t).

(** One row [x = 1, y = 2], then a second one [x = 3, y = 4]. *)
Definition twoXY : heap * STable :=
  let t0 := mkSTable "tblT" ["id"; "x"; "y"] [["x"; "y"]] [] 1 [∅] in
  let '(h1, t1, _) := Rows_add (mkHeap [] []) t0 [("x", VNum 1); ("y", VNum 2)] in
  let '(h2, t2, _) := Rows_add h1 t1 [("x", VNum 3); ("y", VNum 4)] in
  (h2, t2).

End Shared.

(** ** Dependents of a row

    A node is a row named by its table (in the normalized spelling the
    catalog uses) and its identity. *)

Definition node : Type := string * value.

Definition columns_of (d : Database) (nm : string) : list string :=
  match Tables_getTable (tables d) nm with
  | Some t => columns t
  | None => []
  end.

(** The foreign-key columns declared to point at [target], each with the
    table that declares it, in the order the registry enumerates them. *)
Definition edges_to (md : metadata) (target : string) : list (string * string) :=
  flat_map
    (fun '(t, meta) =>
       flat_map
         (fun '(col, tgt) => if decide (tgt = target) then [(t, col)] else [])
         (default [] (foreignKeys meta)))
    md.

(** A live row [child] holds the identity of [parent] in one of the
    columns [edges] lists for its table. *)
Definition refs_via (edges : list (string * string)) (d : Database)
    (child parent : node) : Prop :=
  ∃ col r,
    (child.1, col) ∈ edges ∧
    r ∈ rows_of d child.1 ∧
    arr_get r 0 = child.2 ∧
    arr_get r (Columns_getIndex (columns_of d child.1) col) = parent.2.

(** A live row [child] holds the identity of [parent] in a column that is
    declared as a foreign key to the table of [parent]. *)
Definition references (md : metadata) (d : Database) (child parent : node) : Prop :=
  refs_via (edges_to md parent.1) d child parent.

(** [y] is [x] or depends on it, directly or through other rows. *)
Definition depends_on (md : metadata) (d : Database) (x y : node) : Prop :=
  y = x ∨ tc (references md d) y x.

(** The registry fits the catalog: tables are registered under their
    normalized names, and a table that declares foreign keys exists and
    has the columns it declares. *)
Definition md_wf (md : metadata) (d : Database) : bool :=
  forallb
    (fun '(t, meta) =>
       String.prefix "tbl" t &&
       match foreignKeys meta with
       | None => true
       | Some fks =>
           match tables d !! t with
           | None => false
           | Some tb => forallb (fun '(col, _) => 0 <=? Columns_getIndex (columns tb) col) fks
           end
       end)
    md.

(** Every table has an index for each of its constraints. *)
Definition db_wf (d : Database) : Prop :=
  map_Forall
    (fun _ tb => (length (unique tb) ≤ length (uniqueMaps (rows tb)))%nat)
    (tables d).

(** [rk] ranks every row strictly below the rows it references: the
    data holds no cycle of references. *)
Definition ranked (md : metadata) (d : Database) (rk : node → nat) : bool :=
  forallb
    (fun '(t, meta) =>
       forallb
         (fun '(col, target) =>
            forallb
              (fun r =>
                 (rk (t, arr_get r 0)
                  <? rk (target, arr_get r (Columns_getIndex (columns_of d t) col)))%nat)
              (rows_of d t))
         (default [] (foreignKeys meta)))
    md.

(** The rows of [d'] are the rows of [d] but for the nodes in [l]. *)
Definition removed (d d' : Database) (l : list node) : Prop :=
  ∀ t r, r ∈ rows_of d' t ↔ r ∈ rows_of d t ∧ (normalize t, arr_get r 0) ∉ l.

(** Same tables with the same columns, constraints and number of indexes. *)
Definition same_schema (d d' : Database) : Prop :=
  ∀ t,
    match tables d !! t, tables d' !! t with
    | Some a, Some b =>
        columns a = columns b ∧ unique a = unique b ∧
        length (uniqueMaps (rows a)) = length (uniqueMaps (rows b))
    | None, None => True
    | _, _ => False
    end.

(** A later state of the store [d0]: same schema, every table with its
    indexes, and no row that [d0] did not have. *)
Definition below (d0 d : Database) : Prop :=
  same_schema d0 d ∧ db_wf d ∧ ∀ t r, r ∈ rows_of d t → r ∈ rows_of d0 t.

(** Every row that references a node of [l] comes before it in [l]. *)
Definition dependents_first (md : metadata) (d : Database) (l : list node) : Prop :=
  ∀ l1 z l2, l = l1 ++ z :: l2 → ∀ y, references md d y z → y ∈ l1.

(** What a cascade from [x] started in [s] has done when it returns in
    [s']: it deleted the nodes of [l] and then [x]; the rows of those
    nodes, and no others, are gone; the nodes of [l] depend on [x]; and
    no node was deleted before a row referencing it. *)
Definition cascade_post (md : metadata) (x : node) (s s' : cstate) : Prop :=
  ∃ l,
    deleted s' = deleted s ++ l ++ [x] ∧
    removed (db s) (db s') (l ++ [x]) ∧
    same_schema (db s) (db s') ∧
    db_wf (db s') ∧
    (∀ y, y ∈ l → tc (references md (db s)) y x) ∧
    dependents_first md (db s) (l ++ [x]).

(** Where a cascade from [x] started in [s] stands in [s1], inside its
    loops: as [cascade_post], before [x] itself is deleted; the nodes
    that satisfy [Q] have been deleted. *)
Definition cascade_inv (md : metadata) (x : node) (s : cstate)
    (Q : node → Prop) (s1 : cstate) : Prop :=
  ∃ l,
    deleted s1 = deleted s ++ l ∧
    removed (db s) (db s1) l ∧
    same_schema (db s) (db s1) ∧
    db_wf (db s1) ∧
    (∀ y, y ∈ l → tc (references md (db s)) y x) ∧
    dependents_first md (db s) l ∧
    (∀ y, Q y → y ∈ l).

(** The registry of Players and Games with one more foreign key on
    Games, on a column Games does not have. *)
Definition mdStray : metadata :=
  defines []
    [("Players", mkMeta (Some "id") None (Some "Name") None);
     ("Games",
      mkMeta (Some "id")
        (Some [("player1_id", "tblPlayers"); ("player2_id", "tblPlayers");
               ("owner_id", "tblPlayers")])
        None None)].

(** Tables A(id, x) and B(id, a_id) and the view joining them on
    [A.id = B.a_id]: A has rows 1, 2, 3; two rows of B reference row 1 of
    A, one references row 3, none references row 2. *)
Definition dbAB : Database :=
  let d :=
    seed []
      (addTables emptyDb [("A", ["id"; "x"], []); ("B", ["id"; "a_id"], [])])
      [("A", [("x", VStr "p")]); ("A", [("x", VStr "q")]); ("A", [("x", VStr "r")]);
       ("B", [("a_id", VNum 1)]); ("B", [("a_id", VNum 3)]); ("B", [("a_id", VNum 1)])] in
  mkDatabase (tables d) {["ab" := mkView ["A"; "B"] [mkJoin "id" "B" "a_id"]]}.

Definition viewAB : View := mkView ["A"; "B"] [mkJoin "id" "B" "a_id"].

(** Players rank above games. *)
Definition rkPG (n : node) : nat :=
  if String.eqb n.1 "tblPlayers" then 1%nat else 0%nat.

(** ** The second integrity layer ([AdvancedCrudManager])

    This layer routes its decisions through [BranchlessUtils.select],
    which combines its two alternatives with the bit operators [&] and
    [|]: whatever it is given, it returns a 32-bit integer. A string
    that is a decimal integer literal converts to that integer, any other
    string to [NaN] and so to [0] (the other numeric spellings of
    JavaScript, none of which begins with a letter, are not needed
    here). *)

Module Advanced.

(** [ToInt32] *)
Definition wrap32 (n : Z) : Z := (n + 2147483648) mod 4294967296 - 2147483648.

Definition toInt32 (v : value) : Z :=
  match v with
  | VNum n => wrap32 n
  | VBool true => 1
  | VStr s => wrap32 (default 0 (Z.of_int <$> NilZero.int_of_string s))
  | _ => 0
  end.

(** [`${v}`] *)
Definition to_string (v : value) : string :=
  match v with
  | VUndef => "undefined"
  | VNull => "null"
  | VBool true => "true"
  | VBool false => "false"
  | VNum n => string_of_Z n
  | VStr s => s
  end.

(** [BranchlessUtils.select]: [(trueVal & mask) | (falseVal & ~mask)]
    with [mask = -(!!condition)]. *)
Definition select (condition trueVal falseVal : value) : value :=
  let mask := if truthy condition then -1 else 0 in
  VNum (Z.lor (Z.land (toInt32 trueVal) mask) (Z.land (toInt32 falseVal) (Z.lnot mask))).

(** [BranchlessUtils.max] on numbers. *)
Definition max (a b : Z) : Z :=
  let diff := a - b in
  let mask := Z.land (Z.shiftr (wrap32 diff) 31) 1 in
  a - Z.land (wrap32 diff) (- mask).

(** [BranchlessUtils.min] on numbers. *)
Definition min (a b : Z) : Z :=
  let diff := a - b in
  let mask := Z.land (Z.shiftr (wrap32 diff) 31) 1 in
  b + Z.land (wrap32 diff) (- mask).

(** [BranchlessUtils.abs] on numbers: [(x + mask) ^ mask] with
    [mask = x >> 31]. *)
Definition abs (x : Z) : Z :=
  let mask := Z.shiftr (wrap32 x) 31 in
  Z.lxor (wrap32 (x + mask)) (wrap32 mask).

(** [BranchlessUtils.nullDefault] *)
Definition nullDefault (v defaultVal : value) : value :=
  select (VNum (if is_nullish v then 1 else 0)) defaultVal v.

(** [BranchlessUtils.boundedIndex] *)
Definition boundedIndex (index arrayLength : Z) : value :=
  select (VNum (if (0 <=? index) && (index <? arrayLength) then 1 else 0))
    (VNum index) (VNum (-1)).

(** [_normalize]: [name.startsWith] exists on strings only. *)
Definition _normalize (nm : value) : outcome value :=
  match nm with
  | VStr s =>
      Return (select (VNum (if String.prefix "tbl" s then 1 else 0))
                (VStr s) (VStr ("tbl" ++ s)))
  | _ => Throw TypeError
  end.

(** A [Map] with values as keys, in insertion order. *)
Definition vmap (A : Type) : Type := list (value * A).

Fixpoint vmap_get {A} (m : vmap A) (k : value) : option A :=
  match m with
  | [] => None
  | (k', a) :: m' => if decide (k' = k) then Some a else vmap_get m' k
  end.

Fixpoint vmap_set {A} (m : vmap A) (k : value) (a : A) : vmap A :=
  match m with
  | [] => [(k, a)]
  | (k', a') :: m' =>
      if decide (k' = k) then (k, a) :: m' else (k', a') :: vmap_set m' k a
  end.

(** [Set.prototype.add] on a set kept in insertion order. *)
Definition set_add (l : list value) (v : value) : list value :=
  if bool_decide (v ∈ l) then l else l ++ [v].

(** The declaration [define] stores: the defaults overridden by what the
    caller gave. *)
Record AMeta : Type := mkAMeta {
  a_primaryKey : value;
  a_foreignKeys : list (string * string);
  a_children : list string;
  a_depth : Z
}.

Definition enhance (meta : Meta) : AMeta :=
  mkAMeta
    (match primaryKey meta with Some pk => VStr pk | None => VStr "id" end)
    (default [] (foreignKeys meta))
    (default [] (children meta))
    0.

Record manager : Type := mkManager {
  m_db : Database;
  m_metadata : vmap AMeta;
  m_depthCache : vmap Z;
  m_validationCache : list (string * Z)
}.

(** The facade, called with whatever [_normalize] produced. *)
Definition db_read (d : Database) (tableName : value) (flt : obj value)
    : outcome Rowset :=
  match tableName with
  | VStr s => Database_read d s flt
  | _ => Throw TypeError
  end.

Definition db_create (d : Database) (tableName : value) (o : obj value)
    : Database * outcome value :=
  match tableName with
  | VStr s => Database_create d s o
  | _ => (d, Throw TypeError)
  end.

Definition db_update (d : Database) (tableName : value) (id : value) (o : obj value)
    : Database * outcome unit :=
  match tableName with
  | VStr s => Database_update d s id o
  | _ => (d, Throw TypeError)
  end.

Definition db_delete (d : Database) (tableName : value) (id : value)
    : Database * outcome unit :=
  match tableName with
  | VStr s => Database_delete d s id
  | _ => (d, Throw TypeError)
  end.

(** [_pkOf] *)
Definition _pkOf (md : vmap AMeta) (tableName : value) : outcome value :=
  match _normalize tableName with
  | Throw e => Throw e
  | Return normalizedName =>
      Return
        (nullDefault
           (match vmap_get md normalizedName with
            | Some meta => a_primaryKey meta
            | None => VUndef
            end)
           (VStr "id"))
  end.

(** *** Depths *)

Record dstate : Type := mkDstate {
  d_metadata : vmap AMeta;
  d_depthCache : vmap Z;
  d_visited : list value;
  d_calculating : list value
}.

(** The [reduce] over the parent tables of [calculateDepth], with the
    recursive call as a parameter. *)
Fixpoint depth_reduce (self : value → dstate → option (dstate * outcome Z))
    (parents : list string) (acc : Z) (st : dstate) : option (dstate * outcome Z) :=
  match parents with
  | [] => Some (st, Return acc)
  | parentTable :: rest =>
      match vmap_get (d_metadata st) (VStr parentTable) with
      | None => depth_reduce self rest (max acc 0) st
      | Some _ =>
          match self (VStr parentTable) st with
          | Some (st', Return parentDepth) =>
              depth_reduce self rest (max acc (parentDepth + 1)) st'
          | r => r
          end
      end
  end.

Definition calculateDepth_body (self : value → dstate → option (dstate * outcome Z))
    (tableName : value) (st : dstate) : option (dstate * outcome Z) :=
  match vmap_get (d_depthCache st) tableName with
  | Some depth => Some (st, Return depth)
  | None =>
      if bool_decide (tableName ∈ d_calculating st)
      then Some (st, Throw (CircularDependency tableName))
      else if bool_decide (tableName ∈ d_visited st)
      then Some (st, Return (default 0 (a_depth <$> vmap_get (d_metadata st) tableName)))
      else
        let st1 := mkDstate (d_metadata st) (d_depthCache st) (d_visited st)
                     (d_calculating st ++ [tableName]) in
        let parents :=
          match vmap_get (d_metadata st1) tableName with
          | Some meta => map snd (a_foreignKeys meta)
          | None => []
          end in
        match depth_reduce self parents 0 st1 with
        | Some (st2, Return maxDepth) =>
            let md :=
              match vmap_get (d_metadata st2) tableName with
              | Some meta =>
                  vmap_set (d_metadata st2) tableName
                    (mkAMeta (a_primaryKey meta) (a_foreignKeys meta)
                       (a_children meta) maxDepth)
              | None => d_metadata st2
              end in
            Some (mkDstate md
                    (vmap_set (d_depthCache st2) tableName maxDepth)
                    (d_visited st2 ++ [tableName])
                    (List.filter (fun t => strict_ne t tableName) (d_calculating st2)),
                  Return maxDepth)
        | r => r
        end
  end.

(** [calculateDepth], the closure inside [_calculateDepthsRecursive];
    [None] stands for a call stack that ran out. *)
Fixpoint calculateDepth (fuel : nat) (tableName : value) (st : dstate)
    : option (dstate * outcome Z) :=
  match fuel with
  | O => None
  | S fuel' => calculateDepth_body (calculateDepth fuel') tableName st
  end.

(** [_calculateDepthsRecursive]: every registered table in turn. *)
Fixpoint calculateDepths (fuel : nat) (tableNames : list value) (st : dstate)
    : option (dstate * outcome unit) :=
  match tableNames with
  | [] => Some (st, Return tt)
  | t :: ts =>
      match calculateDepth fuel t st with
      | Some (st', Return _) => calculateDepths fuel ts st'
      | Some (st', Throw e) => Some (st', Throw e)
      | None => None
      end
  end.

Definition define (fuel : nat) (m : manager) (tableName : value) (meta : Meta)
    : option (manager * outcome unit) :=
  match _normalize tableName with
  | Throw e => Some (m, Throw e)
  | Return normalizedName =>
      let md := vmap_set (m_metadata m) normalizedName (enhance meta) in
      match
        calculateDepths fuel (map fst md) (mkDstate md (m_depthCache m) [] [])
      with
      | None => None
      | Some (st, r) =>
          Some (mkManager (m_db m) (d_metadata st) (d_depthCache st)
                  (m_validationCache m), r)
      end
  end.

(** *** Dependents *)

(** The state of the loops of [_getDependentRecordsRecursive]:
    [visited], the map [dependents], and the set [existingIds] while it
    is not yet the one stored in [dependents]. *)
Record gstate : Type := mkGstate {
  g_visited : gset string;
  g_dependents : vmap (list value);
  g_existingIds : list value
}.

(** [existing = dependents.get(table) || new Set(); ids.forEach(id =>
    existing.add(id)); dependents.set(table, existing)] *)
Definition merge_ids (dependents : vmap (list value)) (table : value)
    (ids : list value) : vmap (list value) :=
  vmap_set dependents table
    (fold_left set_add ids (default [] (vmap_get dependents table))).

Definition merge_all (dependents grandChildren : vmap (list value))
    : vmap (list value) :=
  fold_left (fun deps '(table, ids) => merge_ids deps table ids) grandChildren dependents.

(** The body of [_getDependentRecordsRecursive] after the visited
    check, with the recursive call as a parameter. [stored] tells whether
    [existingIds] is the set already held by [dependents] (then adding
    to one is adding to the other) or a new one, put into [dependents]
    only after the rows have been handled. *)
Definition dependents_body
    (self : value → value → gset string → option (gset string * outcome (vmap (list value))))
    (md : vmap AMeta) (d : Database) (tableName id : value) (visited : gset string)
    : option (gset string * outcome (vmap (list value))) :=
  let childTables :=
    List.filter
      (fun childTable =>
         match vmap_get md childTable with
         | Some childMeta =>
             bool_decide (tableName ∈ map (fun p => VStr p.2) (a_foreignKeys childMeta))
         | None => false
         end)
      (map fst md) in
  match
    for_each
      (fun childTable =>
         let foreignKeyColumns :=
           match vmap_get md childTable with
           | Some childMeta =>
               map fst
                 (List.filter (fun p => strict_eq (VStr p.2) tableName)
                    (a_foreignKeys childMeta))
           | None => []
           end in
         for_each
           (fun col st =>
              match db_read d childTable (obj_single col id) with
              | Throw e => Some (st, Throw e)
              | Return rs =>
                  let childRows := Rowset_toArray rs in
                  if (0 <? length childRows)%nat then
                    let stored := bool_decide (is_Some (vmap_get (g_dependents st) childTable)) in
                    match
                      for_each
                        (fun row st =>
                           let childId := arr_get row 0 in
                           let st1 :=
                             if stored
                             then mkGstate (g_visited st)
                                    (merge_ids (g_dependents st) childTable [childId])
                                    (g_existingIds st)
                             else mkGstate (g_visited st) (g_dependents st)
                                    (set_add (g_existingIds st) childId) in
                           match self childTable childId (g_visited st1) with
                           | None => None
                           | Some (visited', Throw e) =>
                               Some (mkGstate visited' (g_dependents st1) (g_existingIds st1),
                                     Throw e)
                           | Some (visited', Return grandChildren) =>
                               Some (mkGstate visited'
                                       (merge_all (g_dependents st1) grandChildren)
                                       (g_existingIds st1),
                                     Return tt)
                           end)
                        childRows
                        (mkGstate (g_visited st) (g_dependents st) [])
                    with
                    | Some (st', Return _) =>
                        Some (mkGstate (g_visited st')
                                (if stored then g_dependents st'
                                 else vmap_set (g_dependents st') childTable (g_existingIds st'))
                                [],
                              Return tt)
                    | r => r
                    end
                  else Some (st, Return tt)
              end)
           foreignKeyColumns)
      childTables (mkGstate visited [] [])
  with
  | None => None
  | Some (st, Throw e) => Some (g_visited st, Throw e)
  | Some (st, Return _) => Some (g_visited st, Return (g_dependents st))
  end.

(** [_getDependentRecordsRecursive]; [None] stands for a call stack that
    ran out. *)
Fixpoint _getDependentRecordsRecursive (fuel : nat) (md : vmap AMeta) (d : Database)
    (tableName id : value) (visited : gset string)
    : option (gset string * outcome (vmap (list value))) :=
  match fuel with
  | O => None
  | S fuel' =>
      let key := (to_string tableName ++ ":" ++ to_string id)%string in
      if bool_decide (key ∈ visited) then Some (visited, Return [])
      else
        dependents_body (_getDependentRecordsRecursive fuel' md d) md d tableName id
          ({[key]} ∪ visited)
  end.

(** *** Delete *)

(** [sort((a, b) => b.depth - a.depth)], which is stable. *)
Fixpoint insert_by_depth (x : value * Z * list value) (l : list (value * Z * list value))
    : list (value * Z * list value) :=
  match l with
  | [] => [x]
  | y :: l' => if y.1.2 <? x.1.2 then x :: y :: l' else y :: insert_by_depth x l'
  end.

Definition _sortByDepthDescending (md : vmap AMeta) (dependents : vmap (list value))
    : list (value * Z * list value) :=
  fold_left (fun acc x => insert_by_depth x acc)
    (map (fun '(table, ids) =>
            (table, default 0 (a_depth <$> vmap_get md table), ids)) dependents)
    [].

(** [_cascadeDeleteRecursive] *)
Fixpoint _cascadeDeleteRecursive (sortedDependents : list (value * Z * list value))
    (d : Database) : Database * outcome unit :=
  match sortedDependents with
  | [] => (d, Return tt)
  | (table, _, ids) :: rest =>
      let deleteAll :=
        fix deleteAll (ids : list value) (d : Database) : Database * outcome unit :=
          match ids with
          | [] => (d, Return tt)
          | id :: ids' =>
              match db_delete d table id with
              | (d', Return _) => deleteAll ids' d'
              | r => r
              end
          end in
      match deleteAll ids d with
      | (d', Return _) => _cascadeDeleteRecursive rest d'
      | r => r
      end
  end.

Definition with_db (m : manager) (d : Database) : manager :=
  mkManager d (m_metadata m) (m_depthCache m) (m_validationCache m).

Definition _executeDelete (fuel : nat) (m : manager) (tableName id : value)
    : option (manager * outcome unit) :=
  match _normalize tableName with
  | Throw e => Some (m, Throw e)
  | Return normalizedName =>
      match _getDependentRecordsRecursive fuel (m_metadata m) (m_db m) normalizedName id ∅ with
      | None => None
      | Some (_, Throw e) => Some (m, Throw e)
      | Some (_, Return dependents) =>
          match
            _cascadeDeleteRecursive (_sortByDepthDescending (m_metadata m) dependents) (m_db m)
          with
          | (d', Throw e) => Some (with_db m d', Throw e)
          | (d', Return _) =>
              let '(d'', r) := db_delete d' normalizedName id in
              Some (with_db m d'', r)
          end
      end
  end.

(** *** Validation, create and update *)

Definition SUCCESS : Z := 0.
Definition FK_VIOLATION : Z := 1.

(** [_getValidationErrorMessage] *)
Definition _getValidationErrorMessage (code : Z) : value :=
  let messages :=
    ["Success"; "Foreign key constraint violation"; "Null constraint violation";
     "Unique constraint violation"; "Record not found"] in
  let validIndex := boundedIndex code 5 in
  select (VBool (match validIndex with VNum n => 0 <=? n | _ => false end))
    (default VUndef (VStr <$> (if code <? 0 then None else messages !! Z.to_nat code)))
    (VStr "Unknown validation error").

Section Validation.

(** [JSON.stringify] on the objects given to create and update. *)
Variable stringify : obj value → string.

Definition cacheKey (tableName : value) (o : obj value) : string :=
  (to_string tableName ++ ":" ++ stringify o)%string.

(** The [map] over the foreign keys, then the [reduce] to the first
    error. *)
Fixpoint validate_entries (md : vmap AMeta) (d : Database)
    (entries : list (string * string)) (o : obj value) : outcome (list Z) :=
  match entries with
  | [] => Return []
  | (col, fkTable) :: rest =>
      let val := obj_get o col in
      let one :=
        if is_nullish val then Return SUCCESS
        else
          match _pkOf md (VStr fkTable) with
          | Throw e => Throw e
          | Return pk =>
              match db_read d (VStr fkTable) (obj_single (to_string pk) val) with
              | Throw e => Throw e
              | Return rs =>
                  match
                    select (VNum (if (0 <? length (Rowset_toArray rs))%nat then 1 else 0))
                      (VNum SUCCESS) (VNum FK_VIOLATION)
                  with
                  | VNum code => Return code
                  | _ => Return SUCCESS
                  end
              end
          end in
      match one with
      | Throw e => Throw e
      | Return code =>
          match validate_entries md d rest o with
          | Throw e => Throw e
          | Return codes => Return (code :: codes)
          end
      end
  end.

Definition reduce_codes (codes : list Z) : Z :=
  fold_left
    (fun acc curr =>
       match select (VNum (if acc =? SUCCESS then 0 else 1)) (VNum acc) (VNum curr) with
       | VNum n => n
       | _ => acc
       end)
    codes SUCCESS.

Definition _validateForeignKeysRecursive (m : manager) (tableName : value) (o : obj value)
    : manager * outcome Z :=
  let key := cacheKey tableName o in
  match obj_lookup (m_validationCache m) key with
  | Some code => (m, Return code)
  | None =>
      let cache code :=
        mkManager (m_db m) (m_metadata m) (m_depthCache m)
          (obj_set (m_validationCache m) key code) in
      match vmap_get (m_metadata m) tableName with
      | Some meta =>
          if (0 <? length (a_foreignKeys meta))%nat then
            match validate_entries (m_metadata m) (m_db m) (a_foreignKeys meta) o with
            | Throw e => (m, Throw e)
            | Return codes => (cache (reduce_codes codes), Return (reduce_codes codes))
            end
          else (cache SUCCESS, Return SUCCESS)
      | None => (cache SUCCESS, Return SUCCESS)
      end
  end.

Definition _executeCreate (m : manager) (tableName : value) (o : obj value)
    : manager * outcome value :=
  match _normalize tableName with
  | Throw e => (m, Throw e)
  | Return normalizedName =>
      match _validateForeignKeysRecursive m normalizedName o with
      | (m1, Throw e) => (m1, Throw e)
      | (m1, Return validationResult) =>
          if validationResult =? SUCCESS then
            let '(d', r) := db_create (m_db m1) normalizedName o in
            (with_db m1 d', r)
          else (m1, Throw (ErrorMessage (_getValidationErrorMessage validationResult)))
      end
  end.

Definition _executeUpdate (m : manager) (tableName id : value) (updates : obj value)
    : manager * outcome unit :=
  match _normalize tableName with
  | Throw e => (m, Throw e)
  | Return normalizedName =>
      match _pkOf (m_metadata m) normalizedName with
      | Throw e => (m, Throw e)
      | Return pk =>
          let cleanUpdates := obj_delete updates (to_string pk) in
          match _validateForeignKeysRecursive m normalizedName cleanUpdates with
          | (m1, Throw e) => (m1, Throw e)
          | (m1, Return validationResult) =>
              if validationResult =? SUCCESS then
                let '(d', r) := db_update (m_db m1) normalizedName id cleanUpdates in
                (with_db m1 d', r)
              else (m1, Throw (ErrorMessage (_getValidationErrorMessage validationResult)))
          end
      end
  end.

End Validation.

(** [_rowToObject]: the table is looked up under what [_normalize] makes
    of the name. *)
Definition _rowToObject (d : Database) (tableName : value) (arr : list value)
    : outcome (obj value) :=
  match _normalize tableName with
  | Throw e => Throw e
  | Return normalizedName =>
      match normalizedName with
      | VStr s =>
          match Tables_getTable (tables d) s with
          | Some t => Return (Crud__rowToObject (columns t) arr)
          | None => Throw TypeError
          end
      | _ => Throw TypeError
      end
  end.

(** [arrs.map(arr => this._rowToObject(name, arr))]: the first throw ends
    the map. *)
Fixpoint map_rowToObject (d : Database) (tableName : value) (arrs : list (list value))
    : outcome (list (obj value)) :=
  match arrs with
  | [] => Return []
  | arr :: rest =>
      match _rowToObject d tableName arr with
      | Throw e => Throw e
      | Return o =>
          match map_rowToObject d tableName rest with
          | Throw e => Throw e
          | Return os => Return (o :: os)
          end
      end
  end.

(** [_executeRead], which is also [readAll]. *)
Definition _executeRead (m : manager) (tableName : value) (flt : obj value)
    : outcome (list (obj value)) :=
  match _normalize tableName with
  | Throw e => Throw e
  | Return normalizedName =>
      match db_read (m_db m) normalizedName flt with
      | Throw e => Throw e
      | Return rs => map_rowToObject (m_db m) normalizedName (Rowset_toArray rs)
      end
  end.

(** [get]: [select(hasResults, results[0], null)]. The record
    [results[0]] is an object, or [undefined] when there is none: both
    convert to [NaN] under [&], as [VUndef] does here. *)
Definition get (m : manager) (tableName id : value) : outcome value :=
  match _pkOf (m_metadata m) tableName with
  | Throw e => Throw e
  | Return pk =>
      match _executeRead m tableName (obj_single (to_string pk) id) with
      | Throw e => Throw e
      | Return results =>
          Return (select (VNum (if (0 <? length results)%nat then 1 else 0)) VUndef VNull)
      end
  end.

(** The keys [_getDependentRecordsRecursive] can add to [visited] below
    the root: one for each live row of each registered table. *)
Definition child_keys (md : vmap AMeta) (d : Database) : gset string :=
  list_to_set
    (flat_map
       (fun childTable =>
          match childTable with
          | VStr s =>
              map (fun row => (to_string childTable ++ ":" ++ to_string (arr_get row 0))%string)
                (rows_of d s)
          | _ => []
          end)
       (map fst md)).

(** The registry a manager would hold for the two mutually referencing
    tables if [_normalize] left table names alone. *)
Definition mdCycNamed : vmap AMeta :=
  [(VStr "tblA", mkAMeta (VStr "id") [("b_id", "tblB")] [] 0);
   (VStr "tblB", mkAMeta (VStr "id") [("a_id", "tblA")] [] 0)].

(** A table of nodes, each referencing its parent: 1, 2 under 1, 3 under
    2; and the registry a manager would hold for it under its name. *)
Definition dbTree : Database :=
  seed []
    (addTables emptyDb [("Node", ["id"; "parent_id"], [])])
    [("Node", []); ("Node", [("parent_id", VNum 1)]); ("Node", [("parent_id", VNum 2)])].

Definition mdTreeNamed : vmap AMeta :=
  [(VStr "tblNode", mkAMeta (VStr "id") [("parent_id", "tblNode")] [] 0)].

End Advanced.

(** ** The driver ([DatabaseDriver]) *)

(** [new DatabaseDriver(tableNames)]: a database with one table, of the
    single column [id], for each name. *)
Definition DatabaseDriver_new (tableNames : list string) : Database :=
  fold_left
    (fun d nm => with_tables d (Tables_addTable (tables d) nm ["id"] []).1)
    tableNames emptyDb.

(** [addUnique]: the constraint is pushed onto [table.unique]. The
    indexes [uniqueMaps] were made when the table was, one for each
    constraint it had then, and are left as they are. *)
Definition DatabaseDriver_addUnique (d : Database) (tableName : string)
    (uniqueCols : list string) : Database * outcome unit :=
  match Tables_getTable (tables d) tableName with
  | None => (d, Throw TypeError)
  | Some t =>
      (with_tables d
         (<[normalize tableName :=
              mkTable (name t) (columns t) (unique t ++ [uniqueCols]) (rows t)]> (tables d)),
       Return tt)
  end.

(** ** Shapes of rows *)

(** The row [add] builds from [rowData] before it looks at the
    constraints. *)
Definition Rows_add_row (t : Table) (rowData : obj value) : list value :=
  arr_set (add_fill (columns t) rowData) 0 (VNum (nextId (rows t))).

(** Every stored row has one cell for each column of its table. *)
Definition rows_have_width (t : Table) : Prop :=
  Forall (fun r => length r = length (columns t)) (data (rows t)).

(** The filter without the columns the table does not have. *)
Definition known_columns (cols : list string) (flt : obj value) : obj value :=
  List.filter (fun kv => 0 <=? Columns_getIndex cols kv.1) flt.

(** ** The join of the design document

    Written from the document's sentence, not from the loops: for every
    surviving left row, in order, and every right row, in order, keep the
    combination only if the two join columns agree; the joined row is the
    left row followed by the right row without its identity. *)

Definition spec_join (leftColIdx rightColIdx : Z)
    (lefts rights : list (list value)) : list (list value) :=
  flat_map
    (fun l =>
       map (fun r => l ++ tail r)
         (List.filter
            (fun r => strict_eq (arr_get l leftColIdx) (arr_get r rightColIdx))
            rights))
    lefts.

Fixpoint spec_joins (ts : gmap string Table) (js : list Join)
    (lefts : list (list value)) (cols : list string) : outcome Rowset :=
  match js with
  | [] => Return (mkRowset cols lefts)
  | j :: js' =>
      match Tables_getTable ts (rightTable j) with
      | None => Throw TypeError
      | Some rt =>
          spec_joins ts js'
            (spec_join (indexOf cols (leftCol j)) (indexOf (columns rt) (rightCol j))
               lefts (data (rows rt)))
            (cols ++ map (fun col => (rightTable j ++ "." ++ col)%string)
                       (tail (columns rt)))
      end
  end.

Definition spec_getData (db : Database) (v : View) : outcome Rowset :=
  match head (tableNames v) with
  | None => Throw TypeError
  | Some first =>
      match Tables_getTable (tables db) first with
      | None => Throw TypeError
      | Some t => spec_joins (tables db) (joins v) (data (rows t)) (columns t)
      end
  end.

(** Every table a view names is in the catalog. *)
Definition view_tables_exist (db : Database) (v : View) : Prop :=
  (∃ first, head (tableNames v) = Some first ∧
            is_Some (Tables_getTable (tables db) first)) ∧
  Forall (fun j => is_Some (Tables_getTable (tables db) (rightTable j))) (joins v).

(** * Properties *)

(** ** Identity assignment *)

Section Identity.

Lemma add_unique_loop_throw_or_return cols arr uniq i maps :
  ∃ maps' r, add_unique_loop cols arr uniq i maps = (maps', r).
Proof. destruct (add_unique_loop cols arr uniq i maps); eauto. Qed.

Lemma arr_get_set_0 (a : list value) v : arr_get (arr_set a 0 v) 0 = v.
Proof.
  unfold arr_get, arr_set; simpl.
  destruct a as [|x a]; reflexivity.
Qed.

(** A successful [add] hands out the current counter and bumps it; a
    failed one adds no row but bumps the counter all the same. *)
Lemma Rows_add_inv t rowData t' r :
  Rows_add t rowData = (t', r) →
  nextId (rows t') = nextId (rows t) + 1 ∧
  columns t' = columns t ∧ unique t' = unique t ∧
  match r with
  | Return id =>
      id = VNum (nextId (rows t)) ∧
      ∃ arr, data (rows t') = data (rows t) ++ [arr] ∧ arr_get arr 0 = id
  | Throw _ => data (rows t') = data (rows t)
  end.
Proof.
  unfold Rows_add.
  destruct (add_unique_loop _ _ _ _ _) as [maps [[]|e]]; intros [= <- <-]; simpl.
  - rewrite arr_get_set_0. repeat split; eauto using arr_get_set_0.
  - repeat split.
Qed.

Lemma Rows_update_nextId t id updates :
  nextId (rows (Rows_update t id updates).1) = nextId (rows t).
Proof.
  unfold Rows_update. destruct (Rows_get _ _) as [[pos old]|]; [|reflexivity].
  destruct (update_unique_loop _ _ _ _ _ _) as [maps [[]|e]]; reflexivity.
Qed.

Lemma Rows_delete_nextId t id :
  nextId (rows (Rows_delete t id).1) = nextId (rows t).
Proof.
  unfold Rows_delete. destruct (Rows_get _ _) as [[pos old]|]; [|reflexivity].
  destruct (delete_unique_loop _ _ _ _ _) as [maps [[]|e]]; reflexivity.
Qed.

Lemma step_nextId t o t' r :
  step t o = (t', r) →
  nextId (rows t) ≤ nextId (rows t') ∧
  match r with
  | Some id => id = VNum (nextId (rows t)) ∧ nextId (rows t') = nextId (rows t) + 1
  | None => True
  end.
Proof.
  destruct o as [rowData|id updates|id]; simpl.
  - destruct (Rows_add t rowData) as [t1 r1] eqn:E. intros [= <- <-].
    apply Rows_add_inv in E as (Hn & _ & _ & Hr).
    split; [lia|]. destruct r1 as [id|e]; simpl; [|exact I].
    destruct Hr as [-> _]. auto.
  - intros [= <- <-]. rewrite Rows_update_nextId. split; [lia|exact I].
  - intros [= <- <-]. rewrite Rows_delete_nextId. split; [lia|exact I].
Qed.

(** Every identity handed out during a run is at least the counter the
    run started from, and the identities come out in increasing order. *)
Lemma run_identities t ops t' ids :
  run t ops = (t', ids) →
  nextId (rows t) ≤ nextId (rows t') ∧
  ∃ ns, ids = map VNum ns ∧
        Forall (fun n => nextId (rows t) ≤ n < nextId (rows t')) ns ∧
        StronglySorted Z.lt ns.
Proof.
  revert t t' ids. induction ops as [|o ops IH]; intros t t' ids; simpl.
  - intros [= <- <-]. split; [lia|]. exists []. repeat constructor.
  - destruct (step t o) as [t1 r] eqn:Es.
    destruct (run t1 ops) as [t2 ids2] eqn:Er. intros [= <- <-].
    apply step_nextId in Es as [Hle Hr].
    apply IH in Er as (Hle2 & ns & -> & Hall & Hsort).
    split; [lia|]. destruct r as [id|].
    + destruct Hr as [-> Hn]. exists (nextId (rows t) :: ns).
      split; [reflexivity|]. split.
      * constructor; [lia|]. eapply Forall_impl; [exact Hall|]. simpl; intros; lia.
      * constructor; [exact Hsort|].
        eapply Forall_impl; [exact Hall|]. simpl; intros; lia.
    + exists ns. split; [reflexivity|]. split; [|exact Hsort].
      eapply Forall_impl; [exact Hall|]. simpl; intros; lia.
Qed.

End Identity.



(** ** Join views *)

Section Joins.

Variables leftColIdx rightColIdx : Z.

Let matches (l r : list value) : bool :=
  strict_eq (arr_get l leftColIdx) (arr_get r rightColIdx).

Lemma join_inner_spec l rights acc :
  join_inner leftColIdx rightColIdx l rights acc =
  acc ++ map (fun r => l ++ tail r) (List.filter (matches l) rights).
Proof.
  unfold join_inner. revert acc.
  induction rights as [|r rights IH]; intros acc; simpl.
  - by rewrite app_nil_r.
  - rewrite IH. unfold matches.
    destruct (strict_eq _ _); simpl; [|reflexivity].
    by rewrite <- app_assoc.
Qed.

Lemma join_step_acc lefts rights acc :
  fold_left
    (fun acc l => join_inner leftColIdx rightColIdx l rights acc) lefts acc =
  acc ++ spec_join leftColIdx rightColIdx lefts rights.
Proof.
  revert acc. induction lefts as [|l lefts IH]; intros acc; simpl.
  - by rewrite app_nil_r.
  - rewrite IH, join_inner_spec. by rewrite <- app_assoc.
Qed.

Lemma join_step_spec lefts rights :
  join_step leftColIdx rightColIdx lefts rights =
  spec_join leftColIdx rightColIdx lefts rights.
Proof. unfold join_step. by rewrite join_step_acc. Qed.

(** Left-major order: the rows of an earlier left row all come first. *)
Lemma spec_join_app lefts1 lefts2 rights :
  spec_join leftColIdx rightColIdx (lefts1 ++ lefts2) rights =
  spec_join leftColIdx rightColIdx lefts1 rights ++
  spec_join leftColIdx rightColIdx lefts2 rights.
Proof. unfold spec_join. by rewrite flat_map_app. Qed.

Lemma elem_of_spec_join row lefts rights :
  row ∈ spec_join leftColIdx rightColIdx lefts rights ↔
  ∃ l r, l ∈ lefts ∧ r ∈ rights ∧
         arr_get l leftColIdx = arr_get r rightColIdx ∧ row = l ++ tail r.
Proof.
  unfold spec_join. rewrite list_elem_of_In, in_flat_map. split.
  - intros (l & Hl & Hrow). apply in_map_iff in Hrow as (r & <- & Hr).
    apply filter_In in Hr as [Hr Hm].
    exists l, r. rewrite !list_elem_of_In. repeat split; try done.
    unfold strict_eq in Hm. by apply bool_decide_eq_true in Hm.
  - intros (l & r & Hl & Hr & Heq & ->). exists l.
    rewrite list_elem_of_In in Hl, Hr. split; [done|].
    apply in_map_iff. exists r. split; [done|].
    apply filter_In. split; [done|].
    unfold strict_eq. by apply bool_decide_eq_true.
Qed.

Lemma spec_join_unmatched l rights :
  (∀ r, r ∈ rights → arr_get l leftColIdx ≠ arr_get r rightColIdx) →
  spec_join leftColIdx rightColIdx [l] rights = [].
Proof.
  intros Hno. unfold spec_join; simpl. rewrite app_nil_r.
  induction rights as [|r rights IH]; simpl; [done|].
  unfold strict_eq. rewrite bool_decide_eq_false_2.
  - apply IH. intros r' Hr'. apply Hno. by right.
  - apply Hno. by left.
Qed.

End Joins.

Lemma getData_loop_spec ts js lefts cols :
  getData_loop ts js lefts cols = spec_joins ts js lefts cols.
Proof.
  revert lefts cols. induction js as [|j js IH]; intros lefts cols; simpl; [done|].
  destruct (Tables_getTable ts (rightTable j)) as [rt|]; [|done].
  by rewrite IH, join_step_spec.
Qed.

Lemma spec_joins_returns ts js lefts cols :
  Forall (fun j => is_Some (Tables_getTable ts (rightTable j))) js →
  ∃ rs, spec_joins ts js lefts cols = Return rs.
Proof.
  intros H. revert lefts cols.
  induction H as [|j js [rt Hrt] _ IH]; intros lefts cols; simpl; [eauto|].
  rewrite Hrt. apply IH.
Qed.

(** C7. [getData] computes exactly the join of the design document: it
    starts from all rows of the first table and, join after join, keeps a
    (left, right) pair iff the left value at the left column equals the
    right value at the right column, the kept row being the left row
    followed by the right row without its identity; rows come out
    left-major and right-minor, and a left row with no partner leaves no
    row. When the tables the view names exist, [getData] returns. *)
Theorem getData_is_inner_join (db : Database) (v : View) :
  View_getData db v = spec_getData db v ∧
  (view_tables_exist db v → ∃ rs, View_getData db v = Return rs) ∧
  (∀ li ri lefts rights,
     join_step li ri lefts rights = spec_join li ri lefts rights ∧
     (∀ row, row ∈ join_step li ri lefts rights ↔
             ∃ l r, l ∈ lefts ∧ r ∈ rights ∧
                    arr_get l li = arr_get r ri ∧ row = l ++ tail r) ∧
     (∀ l, (∀ r, r ∈ rights → arr_get l li ≠ arr_get r ri) →
           join_step li ri [l] rights = [])).
Proof.
  assert (Heq : View_getData db v = spec_getData db v).
  { unfold View_getData, spec_getData.
    destruct (head (tableNames v)) as [first|]; [|done].
    destruct (Tables_getTable (tables db) first) as [t|]; [|done].
    apply getData_loop_spec. }
  split; [exact Heq|]. split.
  - intros [(first & Hf & [t Ht]) Hj]. rewrite Heq.
    unfold spec_getData. rewrite Hf, Ht. by apply spec_joins_returns.
  - intros li ri lefts rights. split; [apply join_step_spec|]. split.
    + intros row. rewrite join_step_spec. apply elem_of_spec_join.
    + intros l Hno. rewrite join_step_spec. by apply spec_join_unmatched.
Qed.

Lemma getData_is_inner_join_witness :
  view_tables_exist dbAB viewAB ∧
  View_getData dbAB viewAB =
    Return (mkRowset ["id"; "x"; "B.a_id"]
              [[VNum 1; VStr "p"; VNum 1]; [VNum 1; VStr "p"; VNum 1];
               [VNum 3; VStr "r"; VNum 3]]).
Proof.
  assert (Hex : view_tables_exist dbAB viewAB).
  { split.
    - exists "A". split; [reflexivity|]. vm_compute. by eexists.
    - repeat constructor. vm_compute. by eexists. }
  split; [exact Hex|].
  destruct (getData_is_inner_join dbAB viewAB) as (Heq & Hret & _).
  destruct (Hret Hex) as (rs & Hrs). rewrite Heq. reflexivity.
Defined.


(** ** Unique constraints *)

(** C1, at a failing input. On a table with constraints on [a] and on
    [b], a rejected create leaves its [a] key in the first index although
    no row holds it; a rejected update leaves the first index without the
    key of the row it restored; and the next create then stores a second
    row with the same [a]. *)
Theorem unique_index_leaks_on_rejection :
  let t0 := (run tAB twoRows).1 in
  unique_invariant t0 ∧ index_exact t0 ∧
  (let '(t1, r) := Rows_add t0 [("a", VNum 7); ("b", VNum 1)] in
   r = Throw (UniqueViolation ["b"]) ∧ data (rows t1) = data (rows t0) ∧
   uniqueMaps (rows t1) = [list_to_set ["1"; "2"; "7"]; list_to_set ["1"; "2"]] ∧
   ¬ index_exact t1) ∧
  (let t2 := (run t0 [rejectedUpdate]).1 in
   data (rows t2) = data (rows t0) ∧
   uniqueMaps (rows t2) = [list_to_set ["2"; "3"]; list_to_set ["1"; "2"]] ∧
   ¬ index_exact t2 ∧
   let '(t3, r) := Rows_add t2 [("a", VNum 1); ("b", VNum 5)] in
   r = Return (VNum 3) ∧
   data (rows t3) =
     [[VNum 1; VNum 1; VNum 1]; [VNum 2; VNum 2; VNum 2]; [VNum 3; VNum 1; VNum 5]] ∧
   ¬ unique_invariant t3).
Proof.
  cbv zeta. split; [|split; [|split]].
  - apply (bool_decide_eq_true_1 _). vm_compute. reflexivity.
  - apply (bool_decide_eq_true_1 _). vm_compute. reflexivity.
  - destruct (Rows_add _ _) as [t1 r] eqn:E. vm_compute in E.
    injection E as <- <-.
    split; [reflexivity|]. split; [reflexivity|]. split; [vm_compute; reflexivity|].
    apply (bool_decide_eq_false_1 _). vm_compute. reflexivity.
  - split; [reflexivity|]. split; [vm_compute; reflexivity|]. split.
    + apply (bool_decide_eq_false_1 _). vm_compute. reflexivity.
    + destruct (Rows_add _ _) as [t3 r] eqn:E. vm_compute in E.
      injection E as <- <-.
      split; [reflexivity|]. split; [reflexivity|].
      apply (bool_decide_eq_false_1 _). vm_compute. reflexivity.
Qed.

Section UpdateConstraints.

Variables (cols : list string) (rowsData : list (list value)).
Variables (old new : list value).

Let collides := collides cols rowsData old new.

Let covers (ucols : list string) (m : gset string) : Prop :=
  ∀ r, r ∈ rowsData → Rows__getUniqueKey cols ucols r ∈ m.

Lemma drop_lookup_head {A} (l : list A) i x rest :
  drop i l = x :: rest → l !! i = Some x ∧ drop (S i) l = rest.
Proof.
  intros H. split.
  - rewrite <- (Nat.add_0_r i), <- lookup_drop, H. reflexivity.
  - replace (S i) with (i + 1)%nat by lia.
    rewrite <- drop_drop, H. reflexivity.
Qed.

Lemma update_unique_loop_rejects uniq i maps :
  Forall2 covers uniq (drop i maps) →
  Exists collides uniq →
  ∃ maps' ucols,
    update_unique_loop cols old new uniq i maps =
    (maps', Throw (UniqueViolation ucols)).
Proof.
  revert i maps. induction uniq as [|ucols rest IH]; intros i maps Hcov Hex.
  - inversion Hex.
  - inversion Hcov as [|? m ? mrest Hm Hrest Eu Em]; subst.
    symmetry in Em. apply drop_lookup_head in Em as [Hi Hdrop].
    simpl.
    destruct (bool_decide (Rows__getUniqueKey cols ucols new ≠ Rows__getUniqueKey cols ucols old)) eqn:Hne.
    + rewrite Hi.
      destruct (bool_decide (Rows__getUniqueKey cols ucols new ∈ m)) eqn:Hin; [eauto|].
      apply IH.
      * rewrite drop_insert_lt by lia. by rewrite Hdrop.
      * apply Exists_cons in Hex as [[_ (r & Hr & Hk)]|Hex]; [|done].
        apply bool_decide_eq_false in Hin. destruct Hin.
        rewrite <- Hk. by apply Hm.
    + apply IH; [by rewrite Hdrop|].
      apply Exists_cons in Hex as [[Hk _]|Hex]; [|done].
      apply bool_decide_eq_false in Hne. by destruct Hne.
Qed.

Lemma update_unique_loop_same_keys uniq i maps :
  Forall (fun ucols => Rows__getUniqueKey cols ucols new = Rows__getUniqueKey cols ucols old) uniq →
  update_unique_loop cols old new uniq i maps = (maps, Return tt).
Proof.
  revert i. induction uniq as [|ucols rest IH]; intros i Hsame; [done|].
  apply Forall_cons in Hsame as [Hk Hsame].
  simpl. rewrite (bool_decide_eq_false_2 _); [|by intros ?].
  by apply IH.
Qed.

End UpdateConstraints.

(** While every index holds the keys of the live rows, the first half of
    C4 is what [update] does: a changed key that is the key of a live row
    makes it throw a unique violation, and the rows are as before. *)
Lemma Rows_update_rejects_collision t id updates pos old :
  index_covers t →
  Rows_get (rows t) id = Some (pos, old) →
  Exists
    (collides (columns t) (data (rows t)) old (update_fill (columns t) updates old))
    (unique t) →
  ∃ t' ucols,
    Rows_update t id updates = (t', Throw (UniqueViolation ucols)) ∧
    data (rows t') = data (rows t).
Proof.
  intros Hcov Hget Hex. unfold Rows_update. rewrite Hget.
  destruct (update_unique_loop_rejects (columns t) (data (rows t)) old
              (update_fill (columns t) updates old) (unique t) 0 (uniqueMaps (rows t)))
    as (maps' & ucols & ->); [exact Hcov|exact Hex|].
  eauto.
Qed.

(** The second half of C4 holds in every state: an update that leaves
    every unique key of the row as it was succeeds, and the indexes are
    not touched. *)
Lemma Rows_update_same_keys t id updates pos old :
  Rows_get (rows t) id = Some (pos, old) →
  Forall
    (fun ucols =>
       Rows__getUniqueKey (columns t) ucols (update_fill (columns t) updates old) =
       Rows__getUniqueKey (columns t) ucols old)
    (unique t) →
  Rows_update t id updates =
  (with_rows t
     (mkRows (<[pos := update_fill (columns t) updates old]> (data (rows t)))
        (nextId (rows t)) (uniqueMaps (rows t))),
   Return tt).
Proof.
  intros Hget Hsame. unfold Rows_update. rewrite Hget.
  by rewrite update_unique_loop_same_keys.
Qed.

(** C4, at a failing input. After the rejected update of row 1 the first
    index has lost the key of row 1, so moving row 2 onto the [a] of
    row 1 is accepted and stored, although the changed key collides with
    the live row 1. *)
Theorem update_misses_collision_after_rejection :
  let t2 := (run tAB (twoRows ++ [rejectedUpdate])).1 in
  data (rows t2) = [[VNum 1; VNum 1; VNum 1]; [VNum 2; VNum 2; VNum 2]] ∧
  Exists
    (collides (columns t2) (data (rows t2)) [VNum 2; VNum 2; VNum 2]
       (update_fill (columns t2) [("a", VNum 1)] [VNum 2; VNum 2; VNum 2]))
    (unique t2) ∧
  let '(t4, r) := Rows_update t2 (VNum 2) [("a", VNum 1)] in
  r = Return tt ∧
  data (rows t4) = [[VNum 1; VNum 1; VNum 1]; [VNum 2; VNum 1; VNum 2]].
Proof.
  cbv zeta. split; [reflexivity|]. split.
  - apply Exists_cons_hd. split; [by vm_compute|].
    exists [VNum 1; VNum 1; VNum 1]. split; [|reflexivity].
    vm_compute. apply list_elem_of_here.
  - destruct (Rows_update _ _ _) as [t4 r] eqn:E. vm_compute in E.
    injection E as <- <-. split; reflexivity.
Qed.

(** ** Foreign-key validation *)

Lemma create_fk_loop_nullish md d fks o :
  Forall (fun '(col, _) => is_nullish (obj_get o col) = true) fks →
  create_fk_loop md d fks o = Return tt.
Proof.
  induction 1 as [|[col fkTable] fks Hnull _ IH]; simpl; [done|].
  by rewrite Hnull.
Qed.

Lemma create_fk_loop_dangling md d fks o col fkTable :
  (col, fkTable) ∈ fks →
  is_nullish (obj_get o col) = false →
  (∀ rs, Database_read d fkTable (obj_single (Crud__pkOf md fkTable) (obj_get o col))
         = Return rs → Rowset_toArray rs = []) →
  ∃ e, create_fk_loop md d fks o = Throw e ∧
       match e with ForeignKeyViolation _ _ _ | TypeError => True | _ => False end.
Proof.
  intros Hin Hval Hnone.
  induction fks as [|[col' fkTable'] fks IH]; [by apply elem_of_nil in Hin|].
  simpl. destruct (is_nullish (obj_get o col')) eqn:Hn.
  - apply elem_of_cons in Hin as [[= <- <-]|Hin]; [congruence|by apply IH].
  - destruct (Database_read d fkTable' _) as [rs|e] eqn:Hread.
    + destruct (length (Rowset_toArray rs) =? 0)%nat eqn:Hlen;
        [by eexists; split|].
      apply elem_of_cons in Hin as [[= <- <-]|Hin]; [|by apply IH].
      apply Hnone in Hread. rewrite Hread in Hlen. discriminate.
    + unfold Database_read in Hread.
      destruct (Tables_getTable _ _); [discriminate|].
      injection Hread as <-. by eexists; split.
Qed.

(** For [create], C5 is what the code does: a non-null foreign-key value
    with no row behind it makes the call throw before the store is
    touched, and null or absent values pass. *)
Lemma Crud_create_validates md d tableName o meta fks :
  obj_lookup md (Crud__normalize tableName) = Some meta →
  foreignKeys meta = Some fks →
  (∀ col fkTable,
     (col, fkTable) ∈ fks →
     is_nullish (obj_get o col) = false →
     (∀ rs, Database_read d fkTable (obj_single (Crud__pkOf md fkTable) (obj_get o col))
            = Return rs → Rowset_toArray rs = []) →
     ∃ e, Crud_create md d tableName o = (d, Throw e) ∧
          match e with ForeignKeyViolation _ _ _ | TypeError => True | _ => False end) ∧
  (Forall (fun '(col, _) => is_nullish (obj_get o col) = true) fks →
   Crud_create md d tableName o = Database_create d (Crud__normalize tableName) o).
Proof.
  intros Hmeta Hfks. split.
  - intros col fkTable Hin Hval Hnone. unfold Crud_create. rewrite Hmeta, Hfks. simpl.
    destruct (create_fk_loop_dangling md d fks o col fkTable) as (e & -> & He); eauto.
  - intros Hnull. unfold Crud_create. rewrite Hmeta, Hfks. simpl.
    by rewrite create_fk_loop_nullish.
Qed.

(** C5, at a failing input. No player has identity 999: creating a game
    for player 999 is refused and the store is untouched, but updating
    game 1 to player 999 goes through and is stored, because [update]
    never looks at the foreign keys. *)
Theorem update_skips_foreign_key_validation :
  Database_read dbPG "tblPlayers" (obj_single "id" (VNum 999))
    = Return (mkRowset ["id"; "Name"] []) ∧
  Crud_create mdPG dbPG "Games" [("player1_id", VNum 999)]
    = (dbPG, Throw (ForeignKeyViolation "tblPlayers" "player1_id" (VNum 999))) ∧
  let '(d, r) := Crud_update mdPG dbPG "Games" (VNum 1) [("player1_id", VNum 999)] in
  r = Return tt ∧
  rows_of d "Games" =
    [[VNum 1; VNum 999; VNum 1]; [VNum 2; VNum 1; VNum 2]; [VNum 3; VNum 5; VNum 2]].
Proof.
  split; [by vm_compute|]. split; [by vm_compute|].
  destruct (Crud_update _ _ _ _ _) as [d r] eqn:E. vm_compute in E.
  injection E as <- <-. split; reflexivity.
Qed.

(** ** Registration of metadata *)

Lemma obj_lookup_set {A} (o : obj A) k v : obj_lookup (obj_set o k v) k = Some v.
Proof.
  induction o as [|[k' v'] o IH]; simpl.
  - by rewrite decide_True.
  - destruct (decide (k' = k)) as [->|Hne]; simpl.
    + by rewrite decide_True.
    + by rewrite decide_False.
Qed.

Lemma indexOf_from_ge i l x : indexOf_from i l x = -1 ∨ i ≤ indexOf_from i l x.
Proof.
  revert i. induction l as [|y l IH]; intros i; simpl; [by left|].
  destruct (decide (y = x)); [right; lia|].
  destruct (IH (i + 1)) as [->|H]; [by left|right; lia].
Qed.

(** A filter on a column the table does not have selects every row. *)
Lemma Rows_find_unknown_column t col v :
  Columns_getIndex (columns t) col = -1 →
  Rows_find t (obj_single col v) = data (rows t).
Proof.
  intros Hidx. unfold Rows_find.
  induction (data (rows t)) as [|r l IH]; simpl; [done|].
  unfold row_matches at 1. simpl. rewrite Hidx. simpl. by rewrite IH.
Qed.




(** ** Cascades on cyclic data *)

Lemma Crud_delete_body_cycle_A self lg :
  (∀ lg', self "tblB" (VNum 1) (mkCstate dbCyc lg') = None) →
  Crud_delete_body self mdCyc "A" (VNum 1) (mkCstate dbCyc lg) = None.
Proof. intros H. vm_compute. vm_compute in H. by rewrite H. Qed.

Lemma Crud_delete_body_cycle_B self lg :
  (∀ lg', self "tblA" (VNum 1) (mkCstate dbCyc lg') = None) →
  Crud_delete_body self mdCyc "tblB" (VNum 1) (mkCstate dbCyc lg) = None.
Proof. intros H. vm_compute. vm_compute in H. by rewrite H. Qed.

Lemma Crud_delete_body_cycle_A' self lg :
  (∀ lg', self "tblB" (VNum 1) (mkCstate dbCyc lg') = None) →
  Crud_delete_body self mdCyc "tblA" (VNum 1) (mkCstate dbCyc lg) = None.
Proof. intros H. vm_compute. vm_compute in H. by rewrite H. Qed.

Lemma Crud_delete_cycle fuel :
  ∀ lg, Crud_delete fuel mdCyc "tblA" (VNum 1) (mkCstate dbCyc lg) = None ∧
        Crud_delete fuel mdCyc "tblB" (VNum 1) (mkCstate dbCyc lg) = None.
Proof.
  induction fuel as [|fuel IH]; intros lg; [done|]. simpl. split.
  - apply Crud_delete_body_cycle_A'. intros lg'. apply IH.
  - apply Crud_delete_body_cycle_B. intros lg'. apply IH.
Qed.

(** C2, at a failing input. Tables [A] and [B] reference each other, row
    1 of [A] references row 1 of [B] and the other way round. Deleting
    row 1 of [A] through [Crud.delete] never comes back: whatever depth
    the call stack allows, the recursion uses it up. *)
Theorem cascade_delete_recurses_forever_on_cycle :
  rows_of dbCyc "A" = [[VNum 1; VNum 1]] ∧
  rows_of dbCyc "B" = [[VNum 1; VNum 1]] ∧
  ∀ fuel, Crud_delete fuel mdCyc "A" (VNum 1) (mkCstate dbCyc []) = None.
Proof.
  split; [reflexivity|]. split; [reflexivity|].
  intros [|fuel]; [done|]. simpl.
  apply Crud_delete_body_cycle_A. intros lg'. apply Crud_delete_cycle.
Qed.

(** ** Reads and later writes *)

Section SharedRows.

Import Shared(heap, STable, arrays, rowObjs, deref, data_ref, row_data,
  alloc_array, alloc_row, write_array, set_data, sname, scolumns, sunique,
  sdata, snextId, suniqueMaps, abs, view, read_toArray, wf, mkHeap).

Lemma deref_alloc_old h a ref :
  (ref < length (arrays h))%nat → deref (alloc_array h a).1 ref = deref h ref.
Proof. intros H. unfold deref; simpl. by rewrite lookup_app_l. Qed.

Lemma deref_alloc_new h a : deref (alloc_array h a).1 (alloc_array h a).2 = a.
Proof.
  unfold deref; simpl. rewrite lookup_app_r by lia.
  by rewrite Nat.sub_diag.
Qed.

Lemma deref_write_same h ref a :
  (ref < length (arrays h))%nat → deref (write_array h ref a) ref = a.
Proof. intros H. unfold deref; simpl. by rewrite list_lookup_insert_eq. Qed.

Lemma deref_write_other h ref a ref' :
  ref ≠ ref' → deref (write_array h ref a) ref' = deref h ref'.
Proof. intros H. unfold deref; simpl. by rewrite list_lookup_insert_ne. Qed.

(** The arrays of a heap after [update]: the one the target row refers
    to holds the merged values, whether the update is accepted or
    rejected; every other array that existed is as it was. *)
Lemma Rows_update_arrays h t id updates :
  match Shared.Rows_get h t id with
  | None => (Shared.Rows_update h t id updates).1.1 = h
  | Some (_, row) =>
      let h' := (Shared.Rows_update h t id updates).1.1 in
      ((data_ref h row < length (arrays h))%nat →
       deref h' (data_ref h row) =
       update_fill (scolumns t) updates (deref h (data_ref h row))) ∧
      (∀ ref, (ref < length (arrays h))%nat → ref ≠ data_ref h row →
              deref h' ref = deref h ref)
  end.
Proof.
  unfold Shared.Rows_update. destruct (Shared.Rows_get h t id) as [[pos row]|]; [|done].
  simpl.
  set (ref := data_ref h row).
  set (h1 := mkHeap (arrays h ++ [deref h ref]) (rowObjs h)).
  set (new := update_fill (scolumns t) updates (deref h ref)).
  assert (Hsame : (ref < length (arrays h))%nat →
                  deref (write_array h1 ref new) ref = new).
  { intros Hlt. apply deref_write_same. simpl. rewrite length_app. lia. }
  assert (Hother : ∀ ref', (ref' < length (arrays h))%nat → ref ≠ ref' →
                           deref (write_array h1 ref new) ref' = deref h ref').
  { intros ref' Hlt Hne. rewrite deref_write_other by done.
    apply (deref_alloc_old h (deref h ref)), Hlt. }
  destruct (update_unique_loop _ _ _ _ _ _) as [maps [[]|e]]; simpl; split;
    try exact Hsame; intros ref' Hlt Hne; by apply Hother.
Qed.

Lemma Rows_delete_heap h t id : (Shared.Rows_delete h t id).1.1 = h.
Proof.
  unfold Shared.Rows_delete. destruct (Shared.Rows_get h t id) as [[pos row]|]; [|done].
  by destruct (delete_unique_loop _ _ _ _ _) as [maps [[]|e]].
Qed.

(** *** The heap model agrees with the model on values *)

Lemma filter_map_comm {A B} (f : A → B) (p : B → bool) (l : list A) :
  List.filter p (map f l) = map f (List.filter (fun x => p (f x)) l).
Proof.
  induction l as [|x l IH]; simpl; [done|].
  destruct (p (f x)); simpl; by rewrite IH.
Qed.

Lemma abs_get h t id :
  Rows_get (rows (abs h t)) id =
  prod_map (@Datatypes.id nat) (row_data h) <$> Shared.Rows_get h t id.
Proof. unfold Rows_get, Shared.Rows_get. simpl. apply list_find_fmap. Qed.

Lemma Rows_get_lookup h t id pos row :
  Shared.Rows_get h t id = Some (pos, row) → sdata t !! pos = Some row.
Proof. unfold Shared.Rows_get. intros H. by apply list_find_Some in H as (? & _). Qed.

Lemma wf_other_ref h t pos row i row' :
  wf h t → sdata t !! pos = Some row → sdata t !! i = Some row' → i ≠ pos →
  data_ref h row' ≠ data_ref h row.
Proof.
  intros [Hnd _] Hpos Hi Hne Heq. apply Hne.
  eapply (NoDup_lookup _ i pos); [exact Hnd| |].
  - rewrite list_lookup_fmap, Hi. reflexivity.
  - rewrite list_lookup_fmap, Hpos. simpl. by rewrite Heq.
Qed.

Lemma wf_valid h t pos row :
  wf h t → sdata t !! pos = Some row →
  (row < length (rowObjs h))%nat ∧ (data_ref h row < length (arrays h))%nat.
Proof.
  intros [_ Hv] Hpos. rewrite Forall_forall in Hv.
  apply Hv, list_elem_of_lookup. eauto.
Qed.

(** [delete] on the heap is [delete] on the values. *)
Lemma abs_delete h t id :
  let '(h', t', r) := Shared.Rows_delete h t id in
  Rows_delete (abs h t) id = (abs h' t', r).
Proof.
  unfold Shared.Rows_delete, Rows_delete.
  fold (Rows_get (rows (abs h t)) id). rewrite abs_get.
  destruct (Shared.Rows_get h t id) as [[pos row]|]; simpl; [|done].
  destruct (delete_unique_loop _ _ _ _ _) as [maps [[]|e]]; simpl; [|done].
  unfold abs; simpl. by rewrite filter_map_comm.
Qed.

(** [find] on the heap selects the rows [find] selects on the values. *)
Lemma abs_find h t flt :
  Rows_find (abs h t) flt = view h (read_toArray h t flt).
Proof.
  unfold Rows_find, view, read_toArray, Shared.Rows_find. simpl.
  rewrite filter_map_comm, map_map. reflexivity.
Qed.

(** [add] on the heap is [add] on the values. *)
Lemma abs_add h t rowData :
  wf h t →
  let '(h', t', r) := Shared.Rows_add h t rowData in
  Rows_add (abs h t) rowData = (abs h' t', r) ∧ wf h' t'.
Proof.
  intros Hwf. unfold Shared.Rows_add, Rows_add. simpl.
  set (arr := arr_set _ _ _).
  assert (Hold : ∀ h2 rs, rowObjs h2 = rowObjs h ++ rs →
                       arrays h2 = arrays h ++ [arr] →
                       map (row_data h2) (sdata t) = map (row_data h) (sdata t) ∧
                       map (data_ref h2) (sdata t) = map (data_ref h) (sdata t)).
  { intros h2 rs Hr Ha. split; apply map_ext_in; intros row Hin;
      apply list_elem_of_In, list_elem_of_lookup in Hin as [pos Hpos];
      destruct (wf_valid h t pos row Hwf Hpos) as [Hv1 Hv2].
    - unfold row_data, data_ref, deref in *. rewrite Hr, Ha.
      rewrite (lookup_app_l (rowObjs h)) by done. by rewrite lookup_app_l.
    - unfold data_ref. rewrite Hr. by rewrite lookup_app_l. }
  destruct (add_unique_loop _ _ _ _ _) as [maps [[]|e]]; simpl.
  - destruct (Hold (mkHeap (arrays h ++ [arr]) (rowObjs h ++ [length (arrays h)]))
                [length (arrays h)] eq_refl eq_refl) as [Hd Hr].
    split.
    + unfold abs; simpl. rewrite map_app, Hd. simpl.
      unfold row_data, data_ref, deref; simpl.
      rewrite (list_lookup_middle (rowObjs h) [] _ _ eq_refl). simpl.
      by rewrite (list_lookup_middle (arrays h) [] _ _ eq_refl).
    + destruct Hwf as [Hnd Hv]. split; simpl.
      * rewrite map_app, Hr. simpl. apply NoDup_app. split; [done|]. split.
        -- intros ref Hin Hin'. apply list_elem_of_singleton in Hin'.
           apply list_elem_of_fmap in Hin as (row & -> & Hrow).
           rewrite Forall_forall in Hv.
           apply Hv in Hrow as [_ Hlt].
           unfold data_ref in Hin' at 2. simpl in Hin'.
           rewrite (list_lookup_middle (rowObjs h) [] _ _ eq_refl) in Hin'.
           simpl in Hin'. lia.
        -- apply NoDup_singleton.
      * apply Forall_app. split.
        -- eapply Forall_impl; [exact Hv|]. simpl. intros row [H1 H2].
           unfold data_ref; simpl. rewrite !length_app; simpl.
           rewrite lookup_app_l by done. unfold data_ref in H2. lia.
        -- constructor; [|constructor]. unfold data_ref; simpl.
           rewrite !length_app; simpl.
           rewrite (list_lookup_middle (rowObjs h) [] _ _ eq_refl). simpl. lia.
  - destruct (Hold (mkHeap (arrays h ++ [arr]) (rowObjs h)) []
                (eq_sym (app_nil_r _)) eq_refl) as [Hd Hr].
    split; [unfold abs; simpl; by rewrite Hd|].
    destruct Hwf as [Hnd Hv]. split; simpl; [by rewrite Hr|].
    eapply Forall_impl; [exact Hv|]. simpl. intros row [H1 H2].
    rewrite length_app. unfold data_ref in *; simpl. lia.
Qed.

(** [update] on the heap is [update] on the values: the in-place
    writes and the restoring assignment [row.data = oldData] leave the
    store holding what the model on values says. *)
Lemma abs_update h t id updates :
  wf h t →
  let '(h', t', r) := Shared.Rows_update h t id updates in
  Rows_update (abs h t) id updates = (abs h' t', r) ∧ wf h' t'.
Proof.
  intros Hwf. unfold Shared.Rows_update, Rows_update.
  fold (Rows_get (rows (abs h t)) id). rewrite abs_get.
  destruct (Shared.Rows_get h t id) as [[pos row]|] eqn:Hget; simpl; [|done].
  apply Rows_get_lookup in Hget as Hpos.
  destruct (wf_valid h t pos row Hwf Hpos) as [Hrow Href].
  set (ref := data_ref h row) in *.
  set (old := deref h ref).
  set (new := update_fill (scolumns t) updates old).
  set (h1 := mkHeap (arrays h ++ [old]) (rowObjs h)).
  set (h2 := write_array h1 ref new).
  assert (Hold : deref h2 (length (arrays h)) = old).
  { unfold h2. rewrite deref_write_other by lia.
    unfold deref, h1; simpl. by rewrite (list_lookup_middle (arrays h) [] _ _ eq_refl). }
  assert (Hnew : deref h2 ref = new).
  { apply deref_write_same. unfold h1; simpl. rewrite length_app. lia. }
  assert (Hkeep : ∀ ref', (ref' < length (arrays h))%nat → ref' ≠ ref →
                          deref h2 ref' = deref h ref').
  { intros ref' Hlt Hne. unfold h2. rewrite deref_write_other by done.
    unfold deref, h1; simpl. by rewrite lookup_app_l. }
  change (row_data h2 row) with (deref h2 ref).
  change (row_data h row) with old. rewrite Hold, Hnew.
  destruct (update_unique_loop _ _ _ _ _ _) as [maps [[]|e]]; simpl.
  - split.
    + unfold abs, with_rows; simpl. do 3 f_equal.
      apply list_eq. intros i. destruct (decide (i = pos)) as [->|Hne].
      * rewrite list_lookup_insert_eq.
        2:{ rewrite length_map. by apply lookup_lt_Some in Hpos. }
        change (map ?f ?l) with (f <$> l).
        rewrite list_lookup_fmap, Hpos. simpl. f_equal. symmetry. exact Hnew.
      * rewrite list_lookup_insert_ne by done.
        change (map ?f ?l) with (f <$> l). rewrite !list_lookup_fmap.
        destruct (sdata t !! i) as [row'|] eqn:Hi; simpl; [|done]. f_equal.
        destruct (wf_valid h t i row' Hwf Hi) as [_ Hv'].
        symmetry. apply (Hkeep (data_ref h row')); [done|]. by eapply wf_other_ref.
    + destruct Hwf as [Hnd Hv]. split; [exact Hnd|].
      eapply Forall_impl; [exact Hv|]. simpl. intros row' [H1 H2].
      unfold data_ref in *; simpl. rewrite length_insert, length_app. lia.
  - assert (Hrefs : ∀ i row', sdata t !! i = Some row' → i ≠ pos →
              data_ref (set_data h2 row (length (arrays h))) row' = data_ref h row').
    { intros i row' Hi Hne. unfold data_ref; simpl.
      rewrite list_lookup_insert_ne; [done|]. intros ->.
      by apply (wf_other_ref h t pos row' i row' Hwf Hpos Hi). }
    assert (Hself : data_ref (set_data h2 row (length (arrays h))) row
                    = length (arrays h)).
    { unfold data_ref; simpl. by rewrite list_lookup_insert_eq. }
    split.
    + unfold abs, with_rows; simpl. do 3 f_equal.
      apply list_eq. intros i. change (map ?f ?l) with (f <$> l).
      rewrite !list_lookup_fmap.
      destruct (sdata t !! i) as [row'|] eqn:Hi; simpl; [|done]. f_equal.
      unfold row_data. destruct (decide (i = pos)) as [->|Hne].
      * rewrite Hpos in Hi. injection Hi as <-. rewrite Hself.
        change (deref (set_data h2 row (length (arrays h))) (length (arrays h)))
          with (deref h2 (length (arrays h))).
        by rewrite Hold.
      * rewrite (Hrefs i row' Hi Hne).
        change (deref (set_data h2 row (length (arrays h))) (data_ref h row'))
          with (deref h2 (data_ref h row')).
        destruct (wf_valid h t i row' Hwf Hi) as [_ Hv'].
        symmetry. apply Hkeep; [done|]. by eapply wf_other_ref.
    + split.
      * apply NoDup_alt. intros i j x Hi Hj.
        unfold Shared.with_srows in Hi, Hj. cbn [sdata] in Hi, Hj.
        change (map ?f ?l) with (f <$> l) in Hi, Hj.
        rewrite list_lookup_fmap in Hi, Hj.
        destruct (sdata t !! i) as [ri|] eqn:Ei; [|done].
        destruct (sdata t !! j) as [rj|] eqn:Ej; [|done].
        simpl in Hi, Hj. injection Hi as Hi. injection Hj as Hj.
        destruct (wf_valid h t i ri Hwf Ei) as [_ Hvi].
        destruct (wf_valid h t j rj Hwf Ej) as [_ Hvj].
        destruct (decide (i = pos)) as [->|Hip], (decide (j = pos)) as [->|Hjp];
          [done| | |].
        -- rewrite Hpos in Ei. injection Ei as <-.
           rewrite Hself in Hi. rewrite (Hrefs j rj Ej Hjp) in Hj. lia.
        -- rewrite Hpos in Ej. injection Ej as <-.
           rewrite Hself in Hj. rewrite (Hrefs i ri Ei Hip) in Hi. lia.
        -- rewrite (Hrefs i ri Ei Hip) in Hi. rewrite (Hrefs j rj Ej Hjp) in Hj.
           destruct Hwf as [Hnd _].
           eapply (NoDup_lookup _ i j); [exact Hnd| |];
             change (map ?f ?l) with (f <$> l); rewrite list_lookup_fmap.
           ++ rewrite Ei. simpl. by rewrite Hi.
           ++ rewrite Ej. simpl. by rewrite Hj.
      * apply Forall_forall. intros row' Hin.
        unfold Shared.with_srows in Hin. cbn [sdata] in Hin.
        apply list_elem_of_lookup in Hin as [i Hi].
        destruct (wf_valid h t i row' Hwf Hi) as [Hv1 Hv2].
        simpl. rewrite !length_insert, length_app. simpl. split; [done|].
        destruct (decide (i = pos)) as [->|Hne].
        -- rewrite Hpos in Hi. injection Hi as <-. rewrite Hself. lia.
        -- rewrite (Hrefs i row' Hi Hne). lia.
Qed.

End SharedRows.





(** ** Cascading deletes on data without cycles *)

Lemma normalize_prefix nm : String.prefix "tbl" nm = true → normalize nm = nm.
Proof. intros H. unfold normalize. by rewrite H. Qed.

Lemma normalize_is_prefixed nm : String.prefix "tbl" (normalize nm) = true.
Proof.
  unfold normalize. destruct (String.prefix "tbl" nm) eqn:E; [exact E|].
  by destruct nm.
Qed.

Lemma normalize_idem nm : normalize (normalize nm) = normalize nm.
Proof. apply normalize_prefix, normalize_is_prefixed. Qed.

Lemma for_each_app {S A} (body : A → S → res S) l1 l2 s :
  for_each body (l1 ++ l2) s =
  match for_each body l1 s with
  | Some (s', Return _) => for_each body l2 s'
  | r => r
  end.
Proof.
  revert s. induction l1 as [|a l1 IH]; intros s; simpl; [done|].
  destruct (body a s) as [[s' [[]|e]]|]; [apply IH|done|done].
Qed.

(** A loop whose every round returns, and keeps an invariant that may
    mention the elements already handled, returns with the invariant. *)
Lemma for_each_invariant {S A} (body : A → S → res S) (I : list A → S → Prop) l s :
  I [] s →
  (∀ l1 a l2 s1, l = l1 ++ a :: l2 → I l1 s1 →
                 ∃ s2, body a s1 = Some (s2, Return tt) ∧ I (l1 ++ [a]) s2) →
  ∃ s', for_each body l s = Some (s', Return tt) ∧ I l s'.
Proof.
  intros H0 Hstep.
  assert (Hgen : ∀ l2 l1 s1, l = l1 ++ l2 → I l1 s1 →
                 ∃ s', for_each body l2 s1 = Some (s', Return tt) ∧ I l s').
  { induction l2 as [|a l2 IH]; intros l1 s1 Hl HI; simpl.
    - rewrite app_nil_r in Hl. subst. eauto.
    - destruct (Hstep l1 a l2 s1 Hl HI) as (s2 & -> & HI2).
      apply (IH (l1 ++ [a])); [|done]. by rewrite <- app_assoc. }
  by apply (Hgen l [] s).
Qed.

(** The two outer loops of [delete] visit the foreign keys that point at
    the table of the row being deleted, one after the other. *)
Lemma for_each_edges (B : string → string → cstate → res cstate)
    (md : metadata) (target : string) (s : cstate) :
  for_each
    (fun '(t, childMeta) =>
       match foreignKeys childMeta with
       | None => fun s => Some (s, Return tt)
       | Some fks =>
           for_each
             (fun '(col, tgt) s =>
                if decide (tgt = target) then B t col s else Some (s, Return tt))
             fks
       end)
    md s =
  for_each (fun '(t, col) => B t col) (edges_to md target) s.
Proof.
  revert s. induction md as [|[t meta] md IH]; intros s; [done|].
  unfold edges_to. simpl. rewrite for_each_app.
  destruct (foreignKeys meta) as [fks|]; simpl; [|apply IH].
  assert (Hin : ∀ s,
    for_each
      (fun '(col, tgt) s =>
         if decide (tgt = target) then B t col s else Some (s, Return tt)) fks s =
    for_each (fun '(t, col) => B t col)
      (flat_map (fun '(col, tgt) => if decide (tgt = target) then [(t, col)] else []) fks) s).
  { clear. induction fks as [|[col tgt] fks IHf]; intros s; [done|]. simpl.
    destruct (decide (tgt = target)); simpl; [|apply IHf].
    destruct (B t col s) as [[s' [[]|err]]|]; [apply IHf|done|done]. }
  rewrite Hin.
  destruct (for_each _ (flat_map _ fks) s) as [[s' [[]|e]]|]; [apply IH|done|done].
Qed.

Lemma row_matches_single cols col id r :
  0 ≤ Columns_getIndex cols col →
  row_matches cols (obj_single col id) r = true ↔
  arr_get r (Columns_getIndex cols col) = id.
Proof.
  intros Hidx. unfold row_matches, obj_single, obj_get. simpl.
  rewrite decide_True by done. simpl.
  replace (-1 <? Columns_getIndex cols col) with true by (symmetry; apply Z.ltb_lt; lia).
  unfold strict_ne, strict_eq. simpl. rewrite andb_true_r, negb_involutive.
  apply bool_decide_eq_true.
Qed.

Lemma delete_unique_loop_returns cols row uniq i maps :
  (length uniq ≤ length (drop i maps))%nat →
  ∃ maps', delete_unique_loop cols row uniq i maps = (maps', Return tt) ∧
           length maps' = length maps.
Proof.
  revert i maps. induction uniq as [|ucols rest IH]; intros i maps Hlen; simpl; [eauto|].
  destruct (drop i maps) as [|m mrest] eqn:Em; [simpl in Hlen; lia|].
  apply drop_lookup_head in Em as [Hi Hdrop]. rewrite Hi.
  destruct (IH (S i) (<[i := m ∖ {[Rows__getUniqueKey cols ucols row]}]> maps))
    as (maps' & -> & Hl).
  - rewrite drop_insert_lt by lia. rewrite Hdrop. simpl in Hlen. lia.
  - exists maps'. split; [done|]. by rewrite Hl, length_insert.
Qed.

(** [delete] drops the rows with the given identity and nothing else. *)
Lemma Rows_delete_rows t id :
  (length (unique t) ≤ length (uniqueMaps (rows t)))%nat →
  ∃ t', Rows_delete t id = (t', Return tt) ∧
        columns t' = columns t ∧ unique t' = unique t ∧
        length (uniqueMaps (rows t')) = length (uniqueMaps (rows t)) ∧
        ∀ r, r ∈ data (rows t') ↔ r ∈ data (rows t) ∧ arr_get r 0 ≠ id.
Proof.
  intros Hlen. unfold Rows_delete.
  destruct (Rows_get (rows t) id) as [[pos row]|] eqn:Hget.
  - destruct (delete_unique_loop_returns (columns t) row (unique t) 0 (uniqueMaps (rows t)))
      as (maps' & -> & Hl); [done|].
    eexists. split; [reflexivity|]. simpl.
    split; [done|]. split; [done|]. split; [done|].
    intros r. rewrite !list_elem_of_In, filter_In.
    unfold strict_ne, strict_eq. rewrite negb_true_iff, bool_decide_eq_false.
    reflexivity.
  - exists t. split; [done|]. split; [done|]. split; [done|]. split; [done|].
    intros r. split; [|tauto]. intros Hr. split; [done|].
    apply list_find_None in Hget. rewrite Forall_forall in Hget. by apply Hget.
Qed.

Lemma rows_of_lookup d t :
  rows_of d t = match tables d !! normalize t with
                | Some tb => data (rows tb)
                | None => []
                end.
Proof. reflexivity. Qed.

Lemma removed_refl d : removed d d [].
Proof. intros t r. split; [|tauto]. intros H. split; [done|]. apply not_elem_of_nil. Qed.

Lemma removed_trans d d' d'' l l' :
  removed d d' l → removed d' d'' l' → removed d d'' (l ++ l').
Proof.
  intros H1 H2 t r. rewrite (H2 t r), (H1 t r), not_elem_of_app. tauto.
Qed.

Lemma same_schema_refl d : same_schema d d.
Proof. intros t. by destruct (tables d !! t). Qed.

Lemma same_schema_trans d d' d'' :
  same_schema d d' → same_schema d' d'' → same_schema d d''.
Proof.
  intros H1 H2 t. specialize (H1 t). specialize (H2 t).
  destruct (tables d !! t), (tables d' !! t), (tables d'' !! t); try done.
  destruct H1 as (-> & -> & ->), H2 as (-> & -> & ->). done.
Qed.

Lemma same_schema_lookup d d' t tb :
  same_schema d d' → tables d !! t = Some tb →
  ∃ tb', tables d' !! t = Some tb' ∧ columns tb' = columns tb.
Proof.
  intros H Ht. specialize (H t). rewrite Ht in H.
  destruct (tables d' !! t) as [tb'|]; [|done].
  destruct H as (-> & _). eauto.
Qed.

Lemma same_schema_columns d d' t :
  same_schema d d' → columns_of d' t = columns_of d t.
Proof.
  intros H. unfold columns_of, Tables_getTable. specialize (H (normalize t)).
  destruct (tables d !! normalize t), (tables d' !! normalize t); try done.
  by destruct H as (-> & _).
Qed.

Lemma below_refl d : db_wf d → below d d.
Proof. intros H. split; [apply same_schema_refl|]. split; [done|]. auto. Qed.

Lemma refs_via_mono edges d d' l y x :
  removed d d' l → same_schema d d' → refs_via edges d' y x → refs_via edges d y x.
Proof.
  intros Hrem Hsch (col & r & Hcol & Hr & H0 & Hv).
  exists col, r. split; [done|]. split; [by apply Hrem in Hr as [? _]|].
  split; [done|]. by rewrite <- (same_schema_columns d d').
Qed.

Lemma tc_references_mono md d d' l y x :
  removed d d' l → same_schema d d' →
  tc (references md d') y x → tc (references md d) y x.
Proof.
  intros Hrem Hsch H. induction H as [y x H|y z x H _ IH].
  - apply tc_once. by eapply refs_via_mono.
  - eapply tc_l; [|exact IH]. by eapply refs_via_mono.
Qed.

Lemma elem_of_edges_to md target t col :
  (t, col) ∈ edges_to md target ↔
  ∃ meta fks, (t, meta) ∈ md ∧ foreignKeys meta = Some fks ∧ (col, target) ∈ fks.
Proof.
  unfold edges_to. rewrite list_elem_of_In, in_flat_map. split.
  - intros ([t' meta] & Hin & Hfl). apply in_flat_map in Hfl as ([col' tgt] & Hfk & Hd).
    destruct (decide (tgt = target)) as [->|]; [|done].
    destruct Hd as [[= <- <-]|[]].
    destruct (foreignKeys meta) as [fks|] eqn:Efk; [|done].
    exists meta, fks. by rewrite !list_elem_of_In.
  - intros (meta & fks & Hin & Efk & Hfk). exists (t, meta).
    split; [by apply list_elem_of_In|]. apply in_flat_map. exists (col, target).
    rewrite Efk. simpl. split; [by apply list_elem_of_In|].
    rewrite decide_True by done. by left.
Qed.

Lemma md_wf_edge md d t col target :
  md_wf md d = true → (t, col) ∈ edges_to md target →
  String.prefix "tbl" t = true ∧
  ∃ tb, tables d !! t = Some tb ∧ 0 ≤ Columns_getIndex (columns tb) col.
Proof.
  intros Hwf Hin. apply elem_of_edges_to in Hin as (meta & fks & Hin & Efk & Hfk).
  unfold md_wf in Hwf. rewrite forallb_forall in Hwf.
  apply list_elem_of_In in Hin. specialize (Hwf _ Hin). simpl in Hwf.
  apply andb_true_iff in Hwf as [Hp Hwf]. split; [done|].
  rewrite Efk in Hwf. destruct (tables d !! t) as [tb|]; [|done].
  exists tb. split; [done|]. rewrite forallb_forall in Hwf.
  apply list_elem_of_In in Hfk. specialize (Hwf _ Hfk). simpl in Hwf. lia.
Qed.

Lemma ranked_references md d rk y x :
  ranked md d rk = true → references md d y x → (rk y < rk x)%nat.
Proof.
  intros Hrk (col & r & Hcol & Hr & H0 & Hv).
  apply elem_of_edges_to in Hcol as (meta & fks & Hin & Efk & Hfk).
  unfold ranked in Hrk. rewrite forallb_forall in Hrk.
  apply list_elem_of_In in Hin. specialize (Hrk _ Hin). simpl in Hrk.
  rewrite Efk in Hrk. simpl in Hrk. rewrite forallb_forall in Hrk.
  apply list_elem_of_In in Hfk. specialize (Hrk _ Hfk). simpl in Hrk.
  rewrite forallb_forall in Hrk. apply list_elem_of_In in Hr.
  specialize (Hrk _ Hr). apply Nat.ltb_lt in Hrk.
  rewrite H0, Hv in Hrk. by destruct y, x.
Qed.

Lemma Database_read_rows d t tb flt :
  String.prefix "tbl" t = true → tables d !! t = Some tb →
  Database_read d t flt = Return (mkRowset (columns tb) (Rows_find tb flt)).
Proof.
  intros Hp Ht. unfold Database_read, Tables_getTable.
  by rewrite (normalize_prefix t Hp), Ht.
Qed.

(** [db.delete] on a table of the catalog returns, having dropped the
    rows of the node and nothing else. *)
Lemma db_delete_spec t id s tb :
  String.prefix "tbl" t = true → tables (db s) !! t = Some tb → db_wf (db s) →
  ∃ s', db_delete t id s = Some (s', Return tt) ∧
        deleted s' = deleted s ++ [(t, id)] ∧
        removed (db s) (db s') [(t, id)] ∧
        same_schema (db s) (db s') ∧
        db_wf (db s').
Proof.
  intros Hp Ht Hwf. unfold db_delete, Database_delete, Tables_getTable.
  rewrite (normalize_prefix t Hp), Ht.
  destruct (Rows_delete_rows tb id) as (tb' & -> & Hc & Hu & Hl & Hrows).
  { by apply (Hwf t tb). }
  eexists. split; [reflexivity|]. simpl. split; [done|]. split; [|split].
  - intros t' r. rewrite !rows_of_lookup. simpl.
    destruct (decide (normalize t' = t)) as [->|Hne].
    + rewrite lookup_insert_eq, Ht, (Hrows r), list_elem_of_singleton.
      split; intros [H1 H2]; (split; [done|]).
      * intros [= E]. by apply H2.
      * intros E. apply H2. by rewrite E.
    + rewrite lookup_insert_ne by done. split; [|tauto]. intros H. split; [done|].
      rewrite list_elem_of_singleton. congruence.
  - intros t'. simpl. destruct (decide (t' = t)) as [->|Hne].
    + by rewrite lookup_insert_eq, Ht.
    + rewrite lookup_insert_ne by done. by destruct (tables (db s) !! t').
  - unfold db_wf. simpl. apply map_Forall_insert_2; [|done]. by rewrite Hu, Hl; apply (Hwf t tb).
Qed.

Section Cascade.

Variables (md : metadata) (d0 : Database) (rk : node → nat).
Hypothesis Hmd : md_wf md d0 = true.
Hypothesis Hrk : ranked md d0 rk = true.

Lemma below_references d y x :
  below d0 d → references md d y x → references md d0 y x.
Proof.
  intros (Hsch & _ & Hsub) (col & r & Hcol & Hr & H0 & Hv).
  exists col, r. split; [done|]. split; [by apply Hsub|]. split; [done|].
  by rewrite <- (same_schema_columns d0 d).
Qed.

Lemma below_trans d d' l :
  below d0 d → removed d d' l → same_schema d d' → db_wf d' → below d0 d'.
Proof.
  intros (Hsch & _ & Hsub) Hrem Hsch' Hwf. split; [by eapply same_schema_trans|].
  split; [done|]. intros t r Hr. apply Hsub. by apply Hrem in Hr as [? _].
Qed.

Lemma below_edge d t col target :
  below d0 d → (t, col) ∈ edges_to md target →
  String.prefix "tbl" t = true ∧
  ∃ tb, tables d !! t = Some tb ∧
        0 ≤ Columns_getIndex (columns tb) col ∧
        columns_of d t = columns tb ∧ rows_of d t = data (rows tb).
Proof.
  intros (Hsch & _) Hin. destruct (md_wf_edge md d0 t col target Hmd Hin) as (Hp & tb0 & Ht0 & Hidx).
  split; [done|]. destruct (same_schema_lookup d0 d t tb0 Hsch Ht0) as (tb & Ht & Hc).
  exists tb. split; [done|]. split; [by rewrite Hc|].
  unfold columns_of, rows_of, Tables_getTable. by rewrite (normalize_prefix t Hp), Ht.
Qed.

Lemma references_prefix d y x : references md d y x → normalize y.1 = y.1.
Proof.
  intros (col & r & Hcol & _). apply normalize_prefix.
  by destruct (md_wf_edge md d0 y.1 col x.1 Hmd Hcol) as [? _].
Qed.

Lemma cascade_inv_weaken x s (Q Q' : node → Prop) s1 :
  cascade_inv md x s Q s1 → (∀ y, Q' y → Q y) → cascade_inv md x s Q' s1.
Proof.
  intros (l & Ha & Hb & Hc & Hw & Hd & He & Hq) HQ.
  exists l. repeat (split; [done|]). auto.
Qed.

(** A child cascade that has returned extends the invariant of the
    cascade that called it. *)
Lemma cascade_inv_step x s (Q : node → Prop) s2 c s3 :
  cascade_inv md x s Q s2 →
  references md (db s) c x →
  cascade_post md c s2 s3 →
  cascade_inv md x s (fun y => Q y ∨ y = c) s3.
Proof.
  intros (l & Ha & Hb & Hc & Hw & Hd & He & Hq) Hcx
         (lc & Ha' & Hb' & Hc' & Hw' & Hd' & He').
  exists (l ++ lc ++ [c]). split; [by rewrite Ha', Ha, <- app_assoc|].
  split; [by eapply removed_trans|]. split; [by eapply same_schema_trans|].
  split; [done|]. split; [|split].
  - intros y Hy. apply elem_of_app in Hy as [Hy|Hy]; [by apply Hd|].
    apply elem_of_app in Hy as [Hy|Hy].
    + eapply tc_r; [|exact Hcx]. eapply tc_references_mono; [exact Hb|exact Hc|].
      by apply Hd'.
    + apply list_elem_of_singleton in Hy as ->. by apply tc_once.
  - intros l1 z l2 Hsplit y Hyz.
    apply app_eq_inv in Hsplit as [(k & Hl & Hk)|(k & Hl1 & Hk)].
    + destruct k as [|z' k].
      * (* [z] is the first node the child deleted *)
        simpl in Hk. rewrite app_nil_r in Hl. subst l1.
        destruct Hyz as (col & r & Hcol & Hr & H0 & Hv).
        destruct (decide (r ∈ rows_of (db s2) y.1)) as [Hin|Hout].
        -- exfalso. eapply not_elem_of_nil. apply (He' [] z l2 (eq_sym Hk) y).
           exists col, r. split; [done|]. split; [done|]. split; [done|].
           by rewrite (same_schema_columns (db s) (db s2)).
        -- destruct (decide ((normalize y.1, arr_get r 0) ∈ l)) as [Hl|Hnl].
           ++ rewrite (normalize_prefix y.1) in Hl.
              ** rewrite H0 in Hl. by destruct y.
              ** by destruct (md_wf_edge md d0 y.1 col z.1 Hmd Hcol) as [? _].
           ++ destruct Hout. apply Hb. by split.
      * injection Hk as <- Hk. apply (He l1 z k Hl y Hyz).
    + (* [z] is a node the child deleted *)
      subst l1. apply elem_of_app.
      destruct Hyz as (col & r & Hcol & Hr & H0 & Hv).
      destruct (decide (r ∈ rows_of (db s2) y.1)) as [Hin|Hout].
      * right. apply (He' k z l2 Hk y).
        exists col, r. split; [done|]. split; [done|]. split; [done|].
        by rewrite (same_schema_columns (db s) (db s2)).
      * left. destruct (decide ((normalize y.1, arr_get r 0) ∈ l)) as [Hl|Hnl].
        -- rewrite (normalize_prefix y.1) in Hl.
           ++ rewrite H0 in Hl. by destruct y.
           ++ by destruct (md_wf_edge md d0 y.1 col z.1 Hmd Hcol) as [? _].
        -- destruct Hout. apply Hb. by split.
  - intros y [Hy| ->].
    + apply elem_of_app. left. by apply Hq.
    + rewrite !elem_of_app, list_elem_of_singleton. auto.
Qed.

(** Once every row that references [x] has been deleted, deleting [x]
    completes the cascade. *)
Lemma cascade_inv_finish t id s s1 :
  String.prefix "tbl" t = true → is_Some (tables (db s) !! t) →
  cascade_inv md (t, id) s (fun y => references md (db s) y (t, id)) s1 →
  ∃ s', db_delete t id s1 = Some (s', Return tt) ∧ cascade_post md (t, id) s s'.
Proof.
  intros Hp [tb Ht] (l & Ha & Hb & Hc & Hw & Hd & He & Hq).
  destruct (same_schema_lookup _ _ t tb Hc Ht) as (tb1 & Ht1 & _).
  destruct (db_delete_spec t id s1 tb1 Hp Ht1 Hw) as (s' & Hdel & Ha' & Hb' & Hc' & Hw').
  exists s'. split; [done|]. exists l.
  split; [by rewrite Ha', Ha, <- app_assoc|].
  split; [by eapply removed_trans|]. split; [by eapply same_schema_trans|].
  split; [done|]. split; [done|].
  intros l1 z l2 Hsplit y Hyz.
  apply app_eq_inv in Hsplit as [(k & Hl & Hk)|(k & Hl1 & Hk)].
  - destruct k as [|z' k].
    + simpl in Hk. injection Hk as -> _. rewrite app_nil_r in Hl. subst l1.
      by apply Hq.
    + injection Hk as <- Hk. apply (He l1 z k Hl y Hyz).
  - destruct k as [|z' k].
    + rewrite app_nil_r in Hl1. subst l1. simpl in Hk. injection Hk as <- _.
      by apply Hq.
    + injection Hk as _ Hk. by destruct k.
Qed.

(** The rows [read] selects for one foreign key are the live rows that
    hold the identity in that column. *)
Lemma read_edge_rows d t col id tb :
  String.prefix "tbl" t = true → tables d !! t = Some tb →
  0 ≤ Columns_getIndex (columns tb) col →
  ∃ rs, Database_read d t (obj_single col id) = Return rs ∧
        ∀ r, r ∈ Rowset_toArray rs ↔
             r ∈ data (rows tb) ∧ arr_get r (Columns_getIndex (columns tb) col) = id.
Proof.
  intros Hp Ht Hidx. rewrite (Database_read_rows d t tb _ Hp Ht).
  eexists. split; [reflexivity|]. intros r. unfold Rowset_toArray, Rows_find. simpl.
  rewrite !list_elem_of_In, filter_In. by rewrite row_matches_single.
Qed.

(** On data without cycles, with enough call stack for the rank of the
    row, [delete] returns, and it has done what [cascade_post] says. *)
Lemma Crud_delete_cascades fuel : ∀ t id s,
  String.prefix "tbl" t = true → is_Some (tables (db s) !! t) → below d0 (db s) →
  (rk (t, id) < fuel)%nat →
  ∃ s', Crud_delete fuel md t id s = Some (s', Return tt) ∧
        cascade_post md (t, id) s s'.
Proof.
  induction fuel as [|fuel IH]; intros t id s Hp Ht Hbelow Hlt; [lia|].
  simpl. unfold Crud_delete_body, Crud__normalize. rewrite (normalize_prefix t Hp).
  rewrite (for_each_edges
    (fun t' col s1 =>
       match Database_read (db s1) t' (obj_single col id) with
       | Throw e => Some (s1, Throw e)
       | Return rs =>
           for_each (fun r => Crud_delete fuel md t' (arr_get r 0)) (Rowset_toArray rs) s1
       end) md t s).
  set (x := (t, id)).
  match goal with |- context [for_each ?body (edges_to md t) s] =>
    destruct (for_each_invariant body
      (fun E s1 => cascade_inv md x s (fun y => refs_via E (db s) y x) s1)
      (edges_to md t) s) as (s_end & -> & Hinv)
  end.
  - (* before the first foreign key *)
    exists []. rewrite app_nil_r. split; [done|]. split; [apply removed_refl|].
    split; [apply same_schema_refl|]. split; [apply Hbelow|].
    split; [intros y Hy; by apply elem_of_nil in Hy|]. split.
    + intros l1 z l2 Hsplit. by destruct l1.
    + intros y (col & r & Hcol & _). by apply elem_of_nil in Hcol.
  - (* one foreign key *)
    intros E1 [t' col] E2 s1 HE Hinv1.
    assert (Hedge : (t', col) ∈ edges_to md x.1).
    { simpl. rewrite HE. apply elem_of_app. right. apply list_elem_of_here. }
    pose proof Hinv1 as (l1 & Ha & Hb & Hc & Hw & Hd & He & Hq).
    pose proof (below_trans _ _ _ Hbelow Hb Hc Hw) as Hbelow1.
    destruct (below_edge (db s1) t' col x.1 Hbelow1 Hedge)
      as (Hp' & tb1 & Ht1 & Hidx & Hcols1 & Hrows1).
    destruct (read_edge_rows (db s1) t' col id tb1 Hp' Ht1 Hidx) as (rs & -> & Hrs).
    match goal with |- context [for_each ?body (Rowset_toArray rs) s1] =>
      destruct (for_each_invariant body
        (fun R1 s2 =>
           cascade_inv md x s
             (fun y => (refs_via E1 (db s) y x ∨ y ∈ l1) ∨
                       ∃ r, r ∈ R1 ∧ y = (t', arr_get r 0)) s2)
        (Rowset_toArray rs) s1) as (s2 & -> & Hinv2)
    end.
    + (* before the first row *)
      exists l1. repeat (split; [done|]).
      intros y [[Hy|Hy]|(r & Hr & _)]; [by apply Hq|done|by apply elem_of_nil in Hr].
    + (* one row: the recursive call *)
      intros R1 r R2 s2 HR Hinv2.
      assert (Hr : r ∈ Rowset_toArray rs).
      { rewrite HR. apply elem_of_app. right. apply list_elem_of_here. }
      apply Hrs in Hr as [Hr Hv].
      assert (Hcx : references md (db s) (t', arr_get r 0) x).
      { exists col, r. split; [done|]. simpl. split.
        - rewrite <- Hrows1 in Hr. by apply Hb in Hr as [? _].
        - split; [done|]. by rewrite <- (same_schema_columns (db s) (db s1)), Hcols1. }
      pose proof Hinv2 as (l2 & Ha2 & Hb2 & Hc2 & Hw2 & _).
      pose proof (below_trans _ _ _ Hbelow Hb2 Hc2 Hw2) as Hbelow2.
      destruct (IH t' (arr_get r 0) s2) as (s3 & Hcall & Hpost); [done| |done| |].
      * destruct (below_edge (db s2) t' col x.1 Hbelow2 Hedge) as (_ & tb2 & -> & _).
        by eexists.
      * pose proof (ranked_references md d0 rk _ _ Hrk (below_references _ _ _ Hbelow Hcx))
          as Hlt'.
        unfold x in Hlt'. lia.
      * exists s3. split; [done|].
        eapply cascade_inv_weaken; [by eapply cascade_inv_step|].
        intros y [[Hy|Hy]|(r' & Hr' & ->)];
          [left; left; by left|left; left; by right|].
        apply elem_of_app in Hr' as [Hr'|Hr'].
        -- left. right. by exists r'.
        -- apply list_elem_of_singleton in Hr' as ->. by right.
    + (* every row of this foreign key has been handled *)
      exists s2. split; [done|].
      eapply cascade_inv_weaken; [exact Hinv2|].
      intros [yt yid] (col' & r' & Hcol' & Hr' & H0 & Hv'). simpl in *.
      apply elem_of_app in Hcol' as [Hcol'|Hcol'].
      * left. left. exists col', r'. by repeat split.
      * apply list_elem_of_singleton in Hcol'. injection Hcol' as -> ->.
        destruct (decide (r' ∈ rows_of (db s1) t')) as [Hin|Hout].
        -- right. exists r'. split; [|by rewrite H0].
           apply Hrs. rewrite <- Hrows1. split; [done|].
           by rewrite <- Hcols1, (same_schema_columns (db s) (db s1)).
        -- left. right.
           destruct (decide ((normalize t', arr_get r' 0) ∈ l1)) as [Hl|Hnl].
           ++ by rewrite (normalize_prefix t' Hp'), H0 in Hl.
           ++ destruct Hout. apply Hb. by split.
  - (* every foreign key has been handled: delete the row itself *)
    by apply cascade_inv_finish.
Qed.

End Cascade.

Lemma Crud_delete_normalize fuel md tableName id s :
  Crud_delete fuel md tableName id s = Crud_delete fuel md (normalize tableName) id s.
Proof.
  destruct fuel as [|fuel]; [done|]. simpl.
  unfold Crud_delete_body, Crud__normalize. by rewrite normalize_idem.
Qed.

Lemma split_snoc_prefix {A} (l : list A) x l1 z l2 y :
  l ++ [x] = l1 ++ z :: l2 → y ∈ l1 → y ∈ l.
Proof.
  intros Hsplit Hy.
  apply app_eq_inv in Hsplit as [(k & -> & _)|(k & -> & Hk)].
  - apply elem_of_app. by left.
  - destruct k as [|z' k]; [by rewrite app_nil_r in Hy|].
    injection Hk as _ Hk. by destruct k.
Qed.

(** Whatever references a deleted node, directly or not, was deleted. *)
Lemma dependents_first_complete md d l x y :
  dependents_first md d (l ++ [x]) → tc (references md d) y x → y ∈ l.
Proof.
  intros Hfirst Htc.
  assert (Hx : x ∈ l ++ [x]) by (apply elem_of_app; right; apply list_elem_of_here).
  revert Hx. induction Htc as [y z Hyz|y w z Hyw _ IH]; intros Hz.
  - apply list_elem_of_split in Hz as (l1 & l2 & Hsplit).
    eapply split_snoc_prefix; [exact Hsplit|]. by apply (Hfirst l1 z l2).
  - specialize (IH Hfirst Hz).
    assert (Hw : w ∈ l ++ [z]) by (apply elem_of_app; by left).
    apply list_elem_of_split in Hw as (l1 & l2 & Hsplit).
    eapply split_snoc_prefix; [exact Hsplit|]. by apply (Hfirst l1 w l2).
Qed.

(** Two games reference player 5 through [player1_id]; deleting player 5
    deletes game 1, game 3 and then the player; game 2, which references
    players 1 and 2, remains. *)
Lemma cascade_delete_players_games :
  ∃ s', Crud_delete 2 mdPG "Players" (VNum 5) (mkCstate dbPG []) = Some (s', Return tt) ∧
        deleted s' = [("tblGames", VNum 1); ("tblGames", VNum 3); ("tblPlayers", VNum 5)] ∧
        rows_of dbPG "Games" =
          [[VNum 1; VNum 5; VNum 1]; [VNum 2; VNum 1; VNum 2]; [VNum 3; VNum 5; VNum 2]] ∧
        rows_of (db s') "Games" = [[VNum 2; VNum 1; VNum 2]] ∧
        rows_of (db s') "Players" =
          [[VNum 1; VStr "Ann"]; [VNum 2; VStr "Bob"]; [VNum 3; VStr "Cy"];
           [VNum 4; VStr "Di"]].
Proof. eexists. split; [vm_compute; reflexivity|]. repeat split. Qed.





(** ** What keeps the indexes exact

    A call that returns keeps the indexes equal to the keys of the live
    rows, and the keys distinct; so does a call that throws on a table
    with at most one constraint, where the throw comes before any index
    write. *)

Section IndexInvariant.

Variable cols : list string.

Abbreviation key := (Rows__getUniqueKey cols).

Lemma take_insert_S {A} (l : list A) i x :
  (i < length l)%nat → take (S i) (<[i := x]> l) = take i l ++ [x].
Proof.
  revert i. induction l as [|y l IH]; intros i Hlt; [simpl in Hlt; lia|].
  destruct i as [|i]; simpl; [by rewrite take_0|].
  f_equal. apply IH. simpl in Hlt. lia.
Qed.

(** A constraint loop that returned has rewritten each index by [f]. *)
Lemma add_unique_loop_cases arr uniq i maps :
  length uniq = length (drop i maps) →
  match add_unique_loop cols arr uniq i maps with
  | (maps', Return _) =>
      maps' = take i maps ++
              zip_with (fun ucols m => {[key ucols arr]} ∪ m) uniq (drop i maps) ∧
      Forall2 (fun ucols (m : gset string) => key ucols arr ∉ m) uniq (drop i maps)
  | (maps', Throw e) => (length uniq ≤ 1)%nat → maps' = maps
  end.
Proof.
  revert i maps. induction uniq as [|ucols rest IH]; intros i maps Hlen; simpl.
  - destruct (drop i maps) eqn:E; [|done]. split; [|constructor].
    rewrite app_nil_r. rewrite <- (take_drop i maps) at 1. by rewrite E, app_nil_r.
  - destruct (drop i maps) as [|m mrest] eqn:Em; [done|].
    apply drop_lookup_head in Em as Hd. destruct Hd as [Hi Hdrop]. rewrite Hi.
    destruct (bool_decide (key ucols arr ∈ m)) eqn:Hin; [done|].
    apply bool_decide_eq_false in Hin.
    specialize (IH (S i) (<[i := {[key ucols arr]} ∪ m]> maps)).
    rewrite drop_insert_lt in IH by lia. rewrite Hdrop in IH.
    destruct (add_unique_loop _ _ _ _ _) as [maps' [[]|e]] eqn:Eloop.
    + destruct IH as [-> Hall]; [simpl in Hlen; lia|]. split; [|by constructor].
      rewrite take_insert_S by (by apply lookup_lt_Some in Hi).
      by rewrite <- app_assoc.
    + intros Hle. simpl in Hle. destruct rest; [|simpl in Hle; lia].
      simpl in Eloop. discriminate.
Qed.

Lemma update_unique_loop_cases old new uniq i maps :
  length uniq = length (drop i maps) →
  match update_unique_loop cols old new uniq i maps with
  | (maps', Return _) =>
      maps' = take i maps ++
              zip_with
                (fun ucols m =>
                   if bool_decide (key ucols new ≠ key ucols old)
                   then {[key ucols new]} ∪ (m ∖ {[key ucols old]}) else m)
                uniq (drop i maps) ∧
      Forall2
        (fun ucols (m : gset string) =>
           key ucols new ≠ key ucols old → key ucols new ∉ m)
        uniq (drop i maps)
  | (maps', Throw e) => (length uniq ≤ 1)%nat → maps' = maps
  end.
Proof.
  revert i maps. induction uniq as [|ucols rest IH]; intros i maps Hlen; simpl.
  - destruct (drop i maps) eqn:E; [|done]. split; [|constructor].
    rewrite app_nil_r. rewrite <- (take_drop i maps) at 1. by rewrite E, app_nil_r.
  - destruct (drop i maps) as [|m mrest] eqn:Em; [done|].
    apply drop_lookup_head in Em as Hd. destruct Hd as [Hi Hdrop].
    destruct (bool_decide (key ucols new ≠ key ucols old)) eqn:Hne.
    + rewrite Hi. destruct (bool_decide (key ucols new ∈ m)) eqn:Hin; [done|].
      apply bool_decide_eq_false in Hin.
      specialize (IH (S i) (<[i := {[key ucols new]} ∪ (m ∖ {[key ucols old]})]> maps)).
      rewrite drop_insert_lt in IH by lia. rewrite Hdrop in IH.
      destruct (update_unique_loop _ _ _ _ _ _) as [maps' [[]|e]] eqn:Eloop.
      * destruct IH as [-> Hall]; [simpl in Hlen; lia|]. split; [|by constructor].
        rewrite take_insert_S by (by apply lookup_lt_Some in Hi).
        by rewrite <- app_assoc.
      * intros Hle. simpl in Hle. destruct rest; [|simpl in Hle; lia].
        simpl in Eloop. discriminate.
    + apply bool_decide_eq_false in Hne.
      specialize (IH (S i) maps). rewrite Hdrop in IH.
      destruct (update_unique_loop _ _ _ _ _ _) as [maps' [[]|e]] eqn:Eloop.
      * destruct IH as [-> Hall]; [simpl in Hlen; lia|]. split; [|by constructor].
        rewrite (take_S_r maps i m Hi). by rewrite <- app_assoc.
      * intros Hle. simpl in Hle. destruct rest; [|simpl in Hle; lia].
        simpl in Eloop. discriminate.
Qed.

Lemma delete_unique_loop_cases row uniq i maps :
  length uniq = length (drop i maps) →
  delete_unique_loop cols row uniq i maps =
  (take i maps ++ zip_with (fun ucols m => m ∖ {[key ucols row]}) uniq (drop i maps),
   Return tt).
Proof.
  revert i maps. induction uniq as [|ucols rest IH]; intros i maps Hlen; simpl.
  - destruct (drop i maps) eqn:E; [|done].
    rewrite app_nil_r. rewrite <- (take_drop i maps) at 1. by rewrite E, app_nil_r.
  - destruct (drop i maps) as [|m mrest] eqn:Em; [done|].
    apply drop_lookup_head in Em as Hd. destruct Hd as [Hi Hdrop]. rewrite Hi.
    rewrite IH.
    + rewrite drop_insert_lt by lia. rewrite Hdrop.
      rewrite take_insert_S by (by apply lookup_lt_Some in Hi).
      by rewrite <- app_assoc.
    + rewrite drop_insert_lt by lia. rewrite Hdrop. simpl in Hlen. lia.
Qed.

Lemma Forall2_zip_with_2 {A B C} (P R : A → B → Prop) (Q : A → C → Prop)
    (f : A → B → C) l k :
  Forall2 P l k → Forall2 R l k →
  (∀ x y, P x y → R x y → Q x (f x y)) →
  Forall2 Q l (zip_with f l k).
Proof.
  intros HP HR Hf. induction HP as [|x y l k Hxy _ IH]; [constructor|].
  inversion HR; subst. simpl. constructor; auto.
Qed.

Lemma Forall2_true {A B} (P : A → B → Prop) l k :
  length l = length k → (∀ x y, P x y) → Forall2 P l k.
Proof.
  intros Hlen HP. apply Forall2_same_length_lookup_2; [done|]. auto.
Qed.

(** The two halves of the invariant, constraint by constraint. *)
Lemma idx_ok_split t :
  columns t = cols →
  index_exact t ∧ keys_distinct t ↔
  Forall2 (idx_ok cols (data (rows t))) (unique t) (uniqueMaps (rows t)).
Proof.
  intros <-. unfold index_exact, keys_distinct, idx_ok. split.
  - intros [Hex Hnd]. induction Hex as [|u m us ms Hu _ IH]; [constructor|].
    apply Forall_cons in Hnd as [Hn Hnd]. constructor; auto.
  - intros H. induction H as [|u m us ms [Hu Hn] _ [IH1 IH2]];
      split; constructor; auto.
Qed.

Section Keys.

Variable ucols : list string.

Let K (l : list (list value)) : gset string := list_to_set (map (key ucols) l).

Lemma keys_snoc l a : K (l ++ [a]) = {[key ucols a]} ∪ K l.
Proof.
  unfold K. rewrite map_app, list_to_set_app_L. simpl.
  rewrite (right_id_L ∅ (∪)). apply (comm_L (∪)).
Qed.

Lemma keys_replace l1 old new l2 :
  NoDup (map (key ucols) (l1 ++ old :: l2)) →
  K (l1 ++ new :: l2) = {[key ucols new]} ∪ (K (l1 ++ old :: l2) ∖ {[key ucols old]}).
Proof.
  unfold K. rewrite !map_app. simpl. intros Hnd.
  apply NoDup_app in Hnd as (_ & Hdisj & Hnd). apply NoDup_cons in Hnd as [Hold _].
  rewrite !list_to_set_app_L. simpl.
  assert (Ho1 : key ucols old ∉ (list_to_set (map (key ucols) l1) : gset string)).
  { rewrite elem_of_list_to_set. intros Hin. apply (Hdisj _ Hin). by left. }
  assert (Ho2 : key ucols old ∉ (list_to_set (map (key ucols) l2) : gset string)).
  { by rewrite elem_of_list_to_set. }
  apply set_eq. intros k.
  rewrite !elem_of_union, elem_of_difference, !elem_of_union, !elem_of_singleton.
  destruct (decide (k = key ucols old)) as [->|]; tauto.
Qed.

Lemma keys_remove l1 row l2 :
  NoDup (map (key ucols) (l1 ++ row :: l2)) →
  K (l1 ++ l2) = K (l1 ++ row :: l2) ∖ {[key ucols row]}.
Proof.
  unfold K. rewrite !map_app. simpl. intros Hnd.
  apply NoDup_app in Hnd as (_ & Hdisj & Hnd). apply NoDup_cons in Hnd as [Hold _].
  rewrite !list_to_set_app_L. simpl.
  assert (Ho1 : key ucols row ∉ (list_to_set (map (key ucols) l1) : gset string)).
  { rewrite elem_of_list_to_set. intros Hin. apply (Hdisj _ Hin). by left. }
  assert (Ho2 : key ucols row ∉ (list_to_set (map (key ucols) l2) : gset string)).
  { by rewrite elem_of_list_to_set. }
  apply set_eq. intros k.
  rewrite elem_of_difference, !elem_of_union, !elem_of_singleton.
  destruct (decide (k = key ucols row)) as [->|]; tauto.
Qed.

Lemma idx_ok_add l a m :
  idx_ok cols l ucols m → key ucols a ∉ m →
  idx_ok cols (l ++ [a]) ucols ({[key ucols a]} ∪ m).
Proof.
  intros [-> Hnd] Hnot. split; [symmetry; apply keys_snoc|].
  rewrite map_app. simpl. apply NoDup_app. split; [done|]. split.
  - intros k Hk Hk'. apply list_elem_of_singleton in Hk' as ->.
    apply Hnot. by apply elem_of_list_to_set.
  - apply NoDup_singleton.
Qed.

Lemma idx_ok_replace l1 old new l2 m :
  idx_ok cols (l1 ++ old :: l2) ucols m →
  (key ucols new ≠ key ucols old → key ucols new ∉ m) →
  idx_ok cols (l1 ++ new :: l2) ucols
    (if bool_decide (key ucols new ≠ key ucols old)
     then {[key ucols new]} ∪ (m ∖ {[key ucols old]}) else m).
Proof.
  intros [-> Hnd] Hnot. destruct (bool_decide _) eqn:Hne.
  - apply bool_decide_eq_true in Hne. specialize (Hnot Hne).
    split; [symmetry; by apply keys_replace|].
    rewrite map_app in *. simpl in *.
    rewrite elem_of_list_to_set, elem_of_app, elem_of_cons in Hnot.
    apply NoDup_app in Hnd as (Hn1 & Hdisj & Hn2). apply NoDup_cons in Hn2 as [Hold Hn2].
    apply NoDup_app. split; [done|]. split.
    + intros k Hk Hk'. apply elem_of_cons in Hk' as [->|Hk']; [tauto|].
      apply (Hdisj _ Hk). by right.
    + apply NoDup_cons. split; [tauto|done].
  - apply bool_decide_eq_false in Hne. apply dec_stable in Hne.
    unfold idx_ok. rewrite !map_app in *. simpl in *. by rewrite Hne.
Qed.

Lemma idx_ok_remove l1 row l2 m :
  idx_ok cols (l1 ++ row :: l2) ucols m →
  idx_ok cols (l1 ++ l2) ucols (m ∖ {[key ucols row]}).
Proof.
  intros [-> Hnd]. split; [symmetry; by apply keys_remove|].
  rewrite map_app in *. simpl in *.
  apply NoDup_app in Hnd as (Hn1 & Hdisj & Hn2). apply NoDup_cons in Hn2 as [_ Hn2].
  apply NoDup_app. split; [done|]. split; [|done].
  intros k Hk Hk'. apply (Hdisj _ Hk). by right.
Qed.

End Keys.

End IndexInvariant.

Lemma arr_get_set_pos a idx v : 0 < idx → arr_get (arr_set a idx v) 0 = arr_get a 0.
Proof.
  intros Hidx. unfold arr_get, arr_set. simpl.
  destruct (Z.to_nat idx) as [|n] eqn:En; [lia|].
  destruct (S n <? length a)%nat.
  - by rewrite list_lookup_insert_ne.
  - destruct a as [|x a]; reflexivity.
Qed.

Lemma arr_get_update_fill_0 cols updates old :
  arr_get (update_fill cols updates old) 0 = arr_get old 0.
Proof.
  unfold update_fill. revert old.
  induction (keys updates) as [|k ks IH]; intros old; simpl; [done|].
  rewrite IH. destruct (0 <? Columns_getIndex cols k) eqn:E; [|done].
  apply arr_get_set_pos. by apply Z.ltb_lt.
Qed.

Lemma Rows_get_split rs id pos row :
  Rows_get rs id = Some (pos, row) →
  ∃ l1 l2, data rs = l1 ++ row :: l2 ∧ length l1 = pos ∧ arr_get row 0 = id.
Proof.
  unfold Rows_get. intros H. apply list_find_Some in H as (Hpos & Hid & _).
  exists (take pos (data rs)), (drop (S pos) (data rs)).
  split; [by rewrite take_drop_middle|]. split; [|done].
  rewrite length_take. apply lookup_lt_Some in Hpos. lia.
Qed.

Lemma insert_middle {A} (l1 l2 : list A) x y :
  <[length l1 := y]> (l1 ++ x :: l2) = l1 ++ y :: l2.
Proof.
  induction l1 as [|z l1 IH]; simpl; [done|]. by rewrite IH.
Qed.

Lemma index_exact_length t :
  index_exact t → length (unique t) = length (uniqueMaps (rows t)).
Proof. apply Forall2_length. Qed.

(** A create keeps the invariant when it returns, and when it throws on
    a table with at most one constraint. *)
Lemma Rows_add_keeps_inv t rowData :
  table_inv t →
  is_Some (returned (Rows_add t rowData).2) ∨ (length (unique t) ≤ 1)%nat →
  table_inv (Rows_add t rowData).1.
Proof.
  intros (Hex & Hkd & Hnd & Hids) Hcase.
  pose proof (index_exact_length t Hex) as Hlen.
  pose proof (proj1 (idx_ok_split (columns t) t eq_refl) (conj Hex Hkd)) as Hok.
  unfold Rows_add in *.
  set (arr := arr_set (add_fill (columns t) rowData) 0 (VNum (nextId (rows t)))) in *.
  pose proof (add_unique_loop_cases (columns t) arr (unique t) 0 (uniqueMaps (rows t)) Hlen)
    as Hloop.
  destruct (add_unique_loop _ _ _ _ _) as [maps' [[]|e]]; simpl in *.
  - destruct Hloop as [-> Hnot]. rewrite drop_0 in Hnot.
    assert (Hok' : Forall2 (idx_ok (columns t) (data (rows t) ++ [arr])) (unique t)
                     (zip_with (fun ucols m =>
                        {[Rows__getUniqueKey (columns t) ucols arr]} ∪ m)
                        (unique t) (uniqueMaps (rows t)))).
    { eapply Forall2_zip_with_2; [exact Hok|exact Hnot|].
      intros u m. apply idx_ok_add. }
    match goal with |- table_inv ?t' =>
      apply (idx_ok_split (columns t) t' eq_refl) in Hok' as [Hex' Hkd']
    end.
    split; [exact Hex'|]. split; [exact Hkd'|]. split; simpl.
    + rewrite map_app. simpl. apply NoDup_app. split; [done|]. split; [|apply NoDup_singleton].
      intros v Hv Hv'. apply list_elem_of_singleton in Hv'. subst v.
      apply list_elem_of_fmap in Hv as (r & Hr & Hin).
      rewrite Forall_forall in Hids. destruct (Hids r Hin) as (n & Hn & Hlt).
      unfold arr in Hr. rewrite arr_get_set_0, Hn in Hr. injection Hr as Hr. lia.
    + apply Forall_app. split.
      * eapply Forall_impl; [exact Hids|]. simpl. intros r (n & Hn & Hlt).
        exists n. split; [done|lia].
      * constructor; [|constructor]. exists (nextId (rows t)).
        split; [apply arr_get_set_0|lia].
  - destruct Hcase as [[? Hs]|Hle]; [discriminate|].
    rewrite (Hloop Hle). split; [exact Hex|]. split; [exact Hkd|]. split; [exact Hnd|].
    simpl. eapply Forall_impl; [exact Hids|]. simpl. intros r (n & Hn & Hlt).
    exists n. split; [done|lia].
Qed.

(** An update keeps the invariant when it returns, and when it throws on
    a table with at most one constraint. *)
Lemma Rows_update_keeps_inv t id updates :
  table_inv t →
  is_Some (returned (Rows_update t id updates).2) ∨ (length (unique t) ≤ 1)%nat →
  table_inv (Rows_update t id updates).1.
Proof.
  intros (Hex & Hkd & Hnd & Hids) Hcase.
  pose proof (index_exact_length t Hex) as Hlen.
  pose proof (proj1 (idx_ok_split (columns t) t eq_refl) (conj Hex Hkd)) as Hok.
  unfold Rows_update in *.
  destruct (Rows_get (rows t) id) as [[pos old]|] eqn:Hget; [|done].
  apply Rows_get_split in Hget as (l1 & l2 & Hdata & <- & Hid).
  set (new := update_fill (columns t) updates old) in *.
  pose proof (update_unique_loop_cases (columns t) old new (unique t) 0
                (uniqueMaps (rows t)) Hlen) as Hloop.
  destruct (update_unique_loop _ _ _ _ _ _) as [maps' [[]|e]]; simpl in *.
  - destruct Hloop as [-> Hnot]. rewrite drop_0 in Hnot.
    rewrite Hdata, insert_middle.
    rewrite Hdata in Hok, Hnd, Hids.
    match goal with |- table_inv ?t' =>
      assert (Hok' : Forall2 (idx_ok (columns t) (l1 ++ new :: l2)) (unique t)
                       (uniqueMaps (rows t')))
    end.
    { simpl. eapply Forall2_zip_with_2; [exact Hok|exact Hnot|].
      intros u m. apply idx_ok_replace. }
    match goal with |- table_inv ?t' =>
      apply (idx_ok_split (columns t) t' eq_refl) in Hok' as [Hex' Hkd']
    end.
    split; [exact Hex'|]. split; [exact Hkd'|].
    assert (Hnew : arr_get new 0 = arr_get old 0) by apply arr_get_update_fill_0.
    split; simpl.
    + rewrite map_app in *. simpl in *. by rewrite Hnew.
    + apply Forall_app in Hids as [H1 H2]. apply Forall_cons in H2 as [Ho H2].
      apply Forall_app. split; [done|]. constructor; [|done]. by rewrite Hnew.
  - destruct Hcase as [[? Hs]|Hle]; [discriminate|].
    rewrite (Hloop Hle). by repeat split.
Qed.

(** A delete returns and keeps the invariant. *)
Lemma Rows_delete_keeps_inv t id :
  table_inv t →
  (Rows_delete t id).2 = Return tt ∧ table_inv (Rows_delete t id).1.
Proof.
  intros (Hex & Hkd & Hnd & Hids).
  pose proof (index_exact_length t Hex) as Hlen.
  pose proof (proj1 (idx_ok_split (columns t) t eq_refl) (conj Hex Hkd)) as Hok.
  unfold Rows_delete.
  destruct (Rows_get (rows t) id) as [[pos row]|] eqn:Hget; [|by repeat split].
  apply Rows_get_split in Hget as (l1 & l2 & Hdata & <- & Hid).
  rewrite (delete_unique_loop_cases (columns t) row (unique t) 0 (uniqueMaps (rows t)) Hlen).
  simpl. split; [done|]. rewrite drop_0.
  rewrite Hdata in Hok, Hnd, Hids |- *.
  assert (Hfilter : List.filter (fun r => strict_ne (arr_get r 0) id) (l1 ++ row :: l2)
                    = l1 ++ l2).
  { rewrite map_app in Hnd. simpl in Hnd.
    apply NoDup_app in Hnd as (_ & Hdisj & Hn2). apply NoDup_cons in Hn2 as [Hrow _].
    assert (Hkeep : ∀ l, (∀ r, r ∈ l → arr_get r 0 ≠ id) →
                         List.filter (fun r => strict_ne (arr_get r 0) id) l = l).
    { clear. induction l as [|r l IH]; intros H; simpl; [done|].
      destruct (strict_ne (arr_get r 0) id) eqn:E.
      - rewrite IH; [done|]. intros r' Hr'. apply H. by right.
      - unfold strict_ne, strict_eq in E.
        apply negb_false_iff, bool_decide_eq_true in E.
        exfalso. by apply (H r); [left|]. }
    rewrite List.filter_app. simpl.
    destruct (strict_ne (arr_get row 0) id) eqn:E.
    { unfold strict_ne, strict_eq in E.
      apply negb_true_iff, bool_decide_eq_false in E. done. }
    rewrite !Hkeep; [done| |].
    - intros r Hr Er. apply Hrow. rewrite Hid, <- Er.
      by apply (list_elem_of_fmap_2 (fun r => arr_get r 0)).
    - intros r Hr Er.
      apply (Hdisj (arr_get r 0)); [by apply (list_elem_of_fmap_2 (fun r => arr_get r 0))|].
      rewrite Er, <- Hid. by left. }
  rewrite Hfilter.
  match goal with |- table_inv ?t' =>
    assert (Hok' : Forall2 (idx_ok (columns t) (l1 ++ l2)) (unique t)
                     (uniqueMaps (rows t')))
  end.
  { simpl. eapply Forall2_zip_with_2; [exact Hok|exact Hok|].
    intros u m H _. by eapply idx_ok_remove. }
  match goal with |- table_inv ?t' =>
    apply (idx_ok_split (columns t) t' eq_refl) in Hok' as [Hex' Hkd']
  end.
  split; [exact Hex'|]. split; [exact Hkd'|]. split; simpl.
  - rewrite map_app in *. simpl in *.
    apply NoDup_app in Hnd as (Hn1 & Hdisj & Hn2). apply NoDup_cons in Hn2 as [_ Hn2].
    apply NoDup_app. split; [done|]. split; [|done].
    intros v Hv Hv'. apply (Hdisj _ Hv). by right.
  - apply Forall_app in Hids as [H1 H2]. apply Forall_cons in H2 as [_ H2].
    by apply Forall_app.
Qed.

Lemma Table_new_inv nm cols uniq t : Table_new nm cols uniq = Return t → table_inv t.
Proof.
  unfold Table_new. destruct (strict_ne _ _); [done|]. intros [= <-].
  split; [|split; [|split]]; simpl.
  - unfold index_exact; simpl. induction uniq; constructor; auto.
  - unfold keys_distinct; simpl. apply Forall_forall. intros. constructor.
  - constructor.
  - constructor.
Qed.

Lemma table_inv_unique t : table_inv t → unique_invariant t ∧ index_exact t.
Proof.
  intros (Hex & Hkd & _). split; [|done].
  unfold unique_invariant, keys_distinct in *.
  eapply Forall_impl; [exact Hkd|]. simpl. intros ucols Hnd.
  unfold Rows__getUniqueKey in Hnd.
  change (map (fun r => join "::" (key_tuple (columns t) ucols r)) (data (rows t)))
    with ((fun r => join "::" (key_tuple (columns t) ucols r)) <$> data (rows t)) in Hnd.
  rewrite (list_fmap_compose (key_tuple (columns t) ucols) (join "::")) in Hnd.
  by apply NoDup_fmap_1 in Hnd.
Qed.

Lemma step_unique t o : unique (step t o).1 = unique t.
Proof.
  destruct o as [rowData|id updates|id]; simpl.
  - destruct (Rows_add t rowData) as [t' r] eqn:E. by apply Rows_add_inv in E as (_ & _ & ? & _).
  - unfold Rows_update. destruct (Rows_get _ _) as [[pos old]|]; [|done].
    by destruct (update_unique_loop _ _ _ _ _ _) as [maps [[]|e]].
  - unfold Rows_delete. destruct (Rows_get _ _) as [[pos old]|]; [|done].
    by destruct (delete_unique_loop _ _ _ _ _) as [maps [[]|e]].
Qed.

(** On a table with at most one constraint, whatever creates, updates
    and deletes are run, accepted or rejected, no two live rows agree on
    the constraint and the index holds exactly the keys of the live
    rows. *)
Lemma unique_invariant_single_constraint t ops :
  (length (unique t) ≤ 1)%nat → table_inv t →
  table_inv (run t ops).1 ∧ unique_invariant (run t ops).1 ∧ index_exact (run t ops).1.
Proof.
  intros Hle Hinv.
  assert (H : table_inv (run t ops).1).
  { revert t Hle Hinv. induction ops as [|o ops IH]; intros t Hle Hinv; [done|].
    simpl. destruct (step t o) as [t1 r] eqn:Es.
    assert (Hinv1 : table_inv t1 ∧ unique t1 = unique t).
    { split; [|by rewrite <- (step_unique t o), Es].
      destruct o as [rowData|id updates|id]; simpl in Es.
      - destruct (Rows_add t rowData) as [t' r'] eqn:E. injection Es as <- _.
        replace t' with (Rows_add t rowData).1 by (by rewrite E).
        apply Rows_add_keeps_inv; auto.
      - injection Es as <- _. apply Rows_update_keeps_inv; auto.
      - injection Es as <- _. by apply Rows_delete_keeps_inv. }
    destruct Hinv1 as [Hinv1 Hu]. specialize (IH t1).
    destruct (run t1 ops) as [t2 ids]. simpl. apply IH; [by rewrite Hu|done]. }
  split; [done|]. by apply table_inv_unique.
Qed.


(** ** The second integrity layer

    [select] turns every table name into the number [0]; the facade then
    finds no [startsWith] on it. What follows is what is left of the
    operations of the manager. *)

Section AdvancedManager.

Import Advanced(select, toInt32, wrap32, _normalize, _pkOf, vmap_get, vmap_set,
  manager, m_db, m_metadata, m_depthCache, m_validationCache, mkManager, with_db,
  _executeDelete, _executeCreate, _executeUpdate, _validateForeignKeysRecursive,
  _getDependentRecordsRecursive, dependents_body, _sortByDepthDescending,
  _cascadeDeleteRecursive, a_foreignKeys, AMeta, gstate, mkGstate, g_visited,
  g_dependents, g_existingIds, child_keys, to_string, vmap).

Lemma prefix_tbl_inv s :
  String.prefix "tbl" s = true → ∃ rest, s = ("tbl" ++ rest)%string.
Proof.
  intros H.
  destruct s as [|a s]; [discriminate|].
  change (String.prefix "tbl" (String a s))
    with (if Ascii.ascii_dec "t"%char a then String.prefix "bl" s else false) in H.
  destruct (Ascii.ascii_dec "t"%char a) as [<-|]; [|discriminate].
  destruct s as [|b s]; [discriminate|].
  change (String.prefix "bl" (String b s))
    with (if Ascii.ascii_dec "b"%char b then String.prefix "l" s else false) in H.
  destruct (Ascii.ascii_dec "b"%char b) as [<-|]; [|discriminate].
  destruct s as [|c s]; [discriminate|].
  change (String.prefix "l" (String c s))
    with (if Ascii.ascii_dec "l"%char c then String.prefix "" s else false) in H.
  destruct (Ascii.ascii_dec "l"%char c) as [<-|]; [|discriminate].
  by exists s.
Qed.

(** A name that starts with [tbl] is no number. *)
Lemma toInt32_tbl s : String.prefix "tbl" s = true → toInt32 (VStr s) = 0.
Proof.
  intros H. apply prefix_tbl_inv in H as (rest & ->).
  unfold toInt32, NilZero.int_of_string, NilZero.uint_of_string. simpl.
  by destruct (NilEmpty.uint_of_string _).
Qed.

(** [_normalize] answers [0] for every table name. *)
Lemma normalize_collapses s : _normalize (VStr s) = Return (VNum 0).
Proof.
  unfold _normalize, select. destruct (String.prefix "tbl" s) eqn:E; simpl truthy; cbv iota.
  - rewrite (toInt32_tbl s E). change (Z.lnot (-1)) with 0.
    by rewrite Z.land_0_r.
  - rewrite (toInt32_tbl ("tbl" ++ s)) by (by destruct s).
    by rewrite Z.land_0_r.
Qed.

Lemma normalize_cases nm :
  _normalize nm = Return (VNum 0) ∨ _normalize nm = Throw TypeError.
Proof. destruct nm; try (by right). left. apply normalize_collapses. Qed.

(** No table references the number [0]: the search for dependents of a
    normalized name comes back empty at once. *)
Lemma no_child_tables (md : vmap AMeta) (n : Z) :
  List.filter
    (fun childTable =>
       match vmap_get md childTable with
       | Some childMeta =>
           bool_decide (VNum n ∈ map (fun p => VStr p.2) (a_foreignKeys childMeta))
       | None => false
       end)
    (map fst md) = [].
Proof.
  induction (map fst md) as [|t ts IH]; simpl; [done|].
  destruct (vmap_get md t) as [meta|]; [|done].
  rewrite bool_decide_eq_false_2; [done|].
  intros Hin. apply list_elem_of_fmap in Hin as (p & Hp & _). discriminate.
Qed.

(** [delete] through the manager deletes nothing: it throws a
    [TypeError], whatever the table and the row. *)
Lemma executeDelete_throws fuel (m : manager) (tableName id : value) :
  _executeDelete (S fuel) m tableName id = Some (m, Throw TypeError).
Proof.
  unfold _executeDelete.
  destruct (normalize_cases tableName) as [-> | ->]; [|done].
  simpl. rewrite bool_decide_eq_false_2 by apply not_elem_of_empty.
  unfold dependents_body. rewrite no_child_tables. simpl. by destruct m.
Qed.

(** [update] through the manager throws before it reads or writes. *)
Lemma executeUpdate_throws stringify (m : manager) (tableName id : value)
    (updates : obj value) :
  _executeUpdate stringify m tableName id updates = (m, Throw TypeError).
Proof.
  unfold _executeUpdate.
  by destruct (normalize_cases tableName) as [-> | ->].
Qed.

Lemma validate_keeps_db stringify (m : manager) tableName o :
  m_db (_validateForeignKeysRecursive stringify m tableName o).1 = m_db m.
Proof.
  unfold _validateForeignKeysRecursive.
  destruct (obj_lookup _ _); [done|].
  destruct (vmap_get _ _) as [meta|]; [|done].
  destruct (0 <? length (a_foreignKeys meta))%nat; [|done].
  by destruct (Advanced.validate_entries _ _ _ _).
Qed.

(** [create] through the manager never stores a row: it throws. *)
Lemma executeCreate_throws stringify (m : manager) (tableName : value) (o : obj value) :
  ∃ m' e, _executeCreate stringify m tableName o = (m', Throw e) ∧ m_db m' = m_db m.
Proof.
  unfold _executeCreate.
  destruct (normalize_cases tableName) as [-> | ->]; [|by eauto].
  pose proof (validate_keeps_db stringify m (VNum 0) o) as Hdb.
  destruct (_validateForeignKeysRecursive stringify m (VNum 0) o) as [m1 [code|e]];
    simpl in Hdb; [|by eauto].
  destruct (code =? Advanced.SUCCESS); [|by eauto].
  simpl. eexists _, _. split; [reflexivity|]. done.
Qed.

(** A loop whose every round comes back, returning or throwing, comes
    back. *)
Lemma for_each_total {S A} (body : A → S → res S) (I : S → Prop) l s :
  I s →
  (∀ a s1, a ∈ l → I s1 → ∃ s2 r, body a s1 = Some (s2, r) ∧ I s2) →
  ∃ s' r, for_each body l s = Some (s', r) ∧ I s'.
Proof.
  revert s. induction l as [|a l IH]; intros s HI Hstep; simpl; [by eauto|].
  destruct (Hstep a s) as (s2 & r & -> & HI2); [by left|done|].
  destruct r as [[]|e]; [|by eauto].
  apply IH; [done|]. intros a' s1 Ha'. apply Hstep. by right.
Qed.

Lemma db_read_rows d s flt rs :
  Advanced.db_read d (VStr s) flt = Return rs →
  ∀ r, r ∈ Rowset_toArray rs → r ∈ rows_of d s.
Proof.
  unfold Advanced.db_read, Database_read, rows_of.
  destruct (Tables_getTable (tables d) s) as [t|]; [|done].
  intros [= <-] r Hr. unfold Rowset_toArray, Rows_find in Hr. simpl in Hr.
  by apply list_elem_of_In, filter_In in Hr as [Hr%list_elem_of_In _].
Qed.

Lemma elem_of_child_keys md d s row :
  VStr s ∈ map fst md → row ∈ rows_of d s →
  (s ++ ":" ++ to_string (arr_get row 0))%string ∈ child_keys md d.
Proof.
  intros Hs Hrow. unfold child_keys. apply elem_of_list_to_set.
  apply list_elem_of_In, in_flat_map. exists (VStr s).
  split; [by apply list_elem_of_In|]. apply in_map_iff. exists row.
  split; [done|]. by apply list_elem_of_In.
Qed.

(** The search for dependents comes back whatever the metadata, the
    store and the root: a call either finds its key in [visited] or adds
    it, and below the root there are only so many keys to add. *)
Lemma getDependents_total md d : ∀ fuel tableName id visited,
  ((to_string tableName ++ ":" ++ to_string id)%string ∈ child_keys md d ∧
   (size (child_keys md d ∖ visited) < fuel)%nat) ∨
  (size (child_keys md d ∖ visited) + 1 < fuel)%nat →
  ∃ visited' r,
    _getDependentRecordsRecursive fuel md d tableName id visited = Some (visited', r) ∧
    visited ⊆ visited'.
Proof.
  induction fuel as [|fuel IH]; intros tableName id visited Hfuel; [lia|].
  simpl. set (key := (to_string tableName ++ ":" ++ to_string id)%string) in *.
  destruct (bool_decide (key ∈ visited)) eqn:Hvis; [by eauto|].
  apply bool_decide_eq_false in Hvis.
  set (visited1 := {[key]} ∪ visited).
  assert (Hsub1 : visited ⊆ visited1) by apply union_subseteq_r.
  assert (Hmu : (size (child_keys md d ∖ visited1) < fuel)%nat).
  { pose proof (difference_mono_l (child_keys md d) _ _ Hsub1) as Hle.
    destruct Hfuel as [[Hkey Hlt]|Hlt].
    - assert (Hlt' : child_keys md d ∖ visited1 ⊂ child_keys md d ∖ visited).
      { split; [exact Hle|]. intros Hsub.
        assert (Hk : key ∈ child_keys md d ∖ visited) by (by apply elem_of_difference).
        apply Hsub, elem_of_difference in Hk as [_ Hk]. apply Hk.
        apply elem_of_union. left. by apply elem_of_singleton. }
      apply subset_size in Hlt'. lia.
    - apply subseteq_size in Hle. lia. }
  clearbody visited1. clear Hfuel.
  unfold dependents_body.
  match goal with |- context [for_each ?body ?l ?s0] =>
    destruct (for_each_total body (fun st => visited1 ⊆ g_visited st) l s0)
      as (st & r & -> & Hst)
  end; [done| |].
  2:{ destruct r as [[]|e]; eexists _, _; (split; [reflexivity|]); by etrans. }
  intros childTable st1 HchildTable Hst1.
  apply list_elem_of_In, filter_In in HchildTable as [HchildTable%list_elem_of_In _].
  match goal with |- context [for_each ?body ?l st1] =>
    apply (for_each_total body (fun st => visited1 ⊆ g_visited st) l st1)
  end; [done|].
  intros col st2 _ Hst2.
  destruct (Advanced.db_read d childTable (obj_single col id)) as [rs|e] eqn:Hread;
    [|by eauto].
  destruct (0 <? length (Rowset_toArray rs))%nat; [|by eauto].
  match goal with |- context [for_each ?body ?l ?s0] =>
    destruct (for_each_total body (fun st => visited1 ⊆ g_visited st) l s0)
      as (st3 & r & -> & Hst3)
  end; [done| |].
  2:{ destruct r as [[]|e]; eexists _, _; (split; [reflexivity|]); done. }
  intros row st3 Hrow Hst3.
  destruct childTable as [| | | |s]; try discriminate.
  pose proof (elem_of_child_keys md d s row HchildTable
                (db_read_rows d s _ rs Hread row Hrow)) as Hkey.
  match goal with |- context [_getDependentRecordsRecursive fuel md d ?t ?i ?v] =>
    destruct (IH t i v) as (visited' & r & -> & Hsub);
      [left; split; [exact Hkey|]|]
  end.
  - match goal with |- (size (_ ∖ ?v) < _)%nat =>
      assert (Hle : child_keys md d ∖ v ⊆ child_keys md d ∖ visited1)
    end.
    { apply difference_mono_l. by destruct (bool_decide _). }
    apply subseteq_size in Hle. lia.
  - assert (visited1 ⊆ visited').
    { etrans; [|exact Hsub]. by destruct (bool_decide _). }
    destruct r as [gc|e]; eexists _, _; (split; [reflexivity|]); done.
Qed.

(** With a call stack of two frames more than there are rows, the search
    comes back for every registry, store and root, cyclic or not. *)
Lemma getDependents_terminates md d tableName id :
  ∃ visited' r,
    _getDependentRecordsRecursive (size (child_keys md d) + 2) md d tableName id ∅
    = Some (visited', r).
Proof.
  destruct (getDependents_total md d (size (child_keys md d) + 2) tableName id ∅)
    as (visited' & r & H & _); [|by eauto].
  right. pose proof (subseteq_size (child_keys md d ∖ ∅) (child_keys md d)) as Hle.
  assert (child_keys md d ∖ ∅ ⊆ child_keys md d) as Hsub.
  { intros x Hx. by apply elem_of_difference in Hx as [? _]. }
  specialize (Hle Hsub). lia.
Qed.

(** On the two mutually referencing rows the search returns both rows
    and stops, where [Crud.delete] recurses for ever. *)
Lemma getDependents_on_cycle :
  ∃ visited,
    _getDependentRecordsRecursive 3 Advanced.mdCycNamed dbCyc (VStr "tblA") (VNum 1) ∅
    = Some (visited, Return [(VStr "tblA", [VNum 1]); (VStr "tblB", [VNum 1])]).
Proof. eexists. vm_compute. reflexivity. Qed.

(** In a table that references itself the search loses the dependents of
    dependents: [existingIds], created while the table was not yet in
    [dependents], is stored over the set the merge put there. Node 3,
    under node 2 under node 1, is not reported for node 1. *)
Lemma getDependents_loses_same_table :
  rows_of Advanced.dbTree "Node" =
    [[VNum 1; VNull]; [VNum 2; VNum 1]; [VNum 3; VNum 2]] ∧
  ∃ visited,
    _getDependentRecordsRecursive 4 Advanced.mdTreeNamed Advanced.dbTree
      (VStr "tblNode") (VNum 1) ∅
    = Some (visited, Return [(VStr "tblNode", [VNum 2])]).
Proof. split; [reflexivity|]. eexists. vm_compute. reflexivity. Qed.

(** *** Registration *)

Section Define.

Import Advanced(dstate, mkDstate, d_metadata, d_depthCache, d_visited, d_calculating,
  depth_reduce, calculateDepth_body, calculateDepth, calculateDepths, enhance, mkAMeta,
  a_primaryKey, a_children, a_depth).

(** Every key of the registry is a number, as [_normalize] makes them. *)
Let numeric (md : vmap AMeta) : Prop := ∀ s, vmap_get md (VStr s) = None.

Lemma vmap_get_set_ne {A} (md : vmap A) k k' a :
  k ≠ k' → vmap_get (vmap_set md k a) k' = vmap_get md k'.
Proof.
  intros Hne. induction md as [|[k0 a0] md IH]; simpl.
  - by rewrite decide_False.
  - destruct (decide (k0 = k)) as [->|Hk]; simpl.
    + by rewrite !decide_False.
    + by rewrite IH.
Qed.

Lemma numeric_set md k a :
  (∀ s, k ≠ VStr s) → numeric md → numeric (vmap_set md k a).
Proof. intros Hk H s. rewrite vmap_get_set_ne; [apply H|apply Hk]. Qed.

Lemma depth_reduce_numeric self parents acc st :
  numeric (d_metadata st) →
  ∃ z, depth_reduce self parents acc st = Some (st, Return z).
Proof.
  intros Hnum. revert acc. induction parents as [|p ps IH]; intros acc; simpl; [by eauto|].
  rewrite Hnum. apply IH.
Qed.

(** While no table is being calculated, [calculateDepth] returns and
    leaves none being calculated; the registry keeps its keys. *)
Lemma calculateDepth_numeric fuel t st :
  numeric (d_metadata st) → d_calculating st = [] →
  ∃ st' z, calculateDepth (S fuel) t st = Some (st', Return z) ∧
           numeric (d_metadata st') ∧ d_calculating st' = [].
Proof.
  intros Hnum Hcalc. simpl. unfold calculateDepth_body.
  destruct (vmap_get (d_depthCache st) t); [by eauto|].
  rewrite Hcalc. rewrite bool_decide_eq_false_2 by apply not_elem_of_nil.
  destruct (bool_decide (t ∈ d_visited st)); [by eauto|].
  simpl.
  match goal with |- context [depth_reduce ?self ?ps 0 ?st1] =>
    destruct (depth_reduce_numeric self ps 0 st1 Hnum) as (z & ->)
  end.
  eexists _, _. split; [reflexivity|]. simpl. split.
  - destruct (vmap_get (d_metadata st) t) as [meta|] eqn:E; [|done].
    apply numeric_set; [|done]. intros s ->. by rewrite Hnum in E.
  - unfold strict_ne, strict_eq. by rewrite bool_decide_eq_true_2.
Qed.

Lemma calculateDepths_numeric fuel ts st :
  numeric (d_metadata st) → d_calculating st = [] →
  ∃ st', calculateDepths (S fuel) ts st = Some (st', Return tt).
Proof.
  revert st. induction ts as [|t ts IH]; intros st Hnum Hcalc; [by eauto|].
  cbn [calculateDepths].
  destruct (calculateDepth_numeric fuel t st Hnum Hcalc) as (st' & z & -> & Hnum' & Hcalc').
  by apply IH.
Qed.

(** [define] through the manager accepts every declaration: with a
    registry keyed as [_normalize] keys it, it returns, whatever tables
    and columns the declaration names and whatever the catalog holds. *)
Lemma define_accepts fuel (m : manager) (s : string) (meta : Meta) :
  (∀ s', vmap_get (m_metadata m) (VStr s') = None) →
  ∃ m', Advanced.define (S fuel) m (VStr s) meta = Some (m', Return tt) ∧
        m_db m' = m_db m.
Proof.
  intros Hnum. unfold Advanced.define. rewrite normalize_collapses.
  match goal with |- context [calculateDepths _ ?ts ?st] =>
    destruct (calculateDepths_numeric fuel ts st) as (st' & ->)
  end; [by apply numeric_set|done|].
  by eauto.
Qed.

End Define.

End AdvancedManager.
